(** * The biorbd model adapter of bioptim (bioptim/interfaces/biorbd_model.py)

    [BiorbdModel] wraps one model object of the biorbd engine and forwards
    every operation to it.  The adapter's methods are embedded as programs
    over the calls they make on the wrapped engine; the engine itself is a
    parameter (a handler answering each call), so every statement below is
    about the adapter's own code. *)

From Stdlib Require Import String Bool Arith ZArith Lia List.
Import ListNotations.

Set Implicit Arguments.
Set Warnings "-register-all".

(** ** Matrices of the optimisation framework (casadi MX)

    A dense matrix is the list of its columns; a flat vector is a matrix with
    one column.  [nonzeros] lists the entries in the framework's (column
    major) order, which is the order a single subscript counts in. *)

Definition matrix (T : Type) : Type := list (list T).

(** Errors the matrix library and the Python runtime raise on their own,
    without the engine being involved. *)
Inductive lib_error : Type :=
| OutOfBounds          (* casadi: subscript outside the matrix *)
| DimensionMismatch    (* casadi: block assignment of the wrong shape *)
| IndexError.          (* Python: tuple index out of range *)

Section Matrix.
Context {T : Type}.

Definition colvec (v : list T) : matrix T := [v].
Definition size1 (m : matrix T) : nat := length (hd [] m).
Definition size2 (m : matrix T) : nat := length m.
Definition nonzeros (m : matrix T) : list T := concat m.

(** [MX.zeros(r, c)] *)
Definition zeros (z : T) (r c : nat) : matrix T := repeat (repeat z r) c.

(** [horzcat] of the matrices [ms]: the columns of the operands side by
    side.  The operands here are the engine's markers, columns of one
    height. *)
Definition horzcat (ms : list (matrix T)) : matrix T := concat ms.

(** The entries at the positions [idx], in the order of [idx]; nothing when
    a position lies outside the list. *)
Fixpoint get_all (l : list T) (idx : list nat) : option (list T) :=
  match idx with
  | [] => Some []
  | i :: rest =>
      match nth_error l i, get_all l rest with
      | Some x, Some xs => Some (x :: xs)
      | _, _ => None
      end
  end.

(** [m[idx]] with [idx] a list of non-negative integers, on a flat vector
    [m]: a column of the entries at those positions; the library raises
    when a position is out of range. *)
Definition getitem (m : matrix T) (idx : list nat) : lib_error + matrix T :=
  match get_all (nonzeros m) idx with
  | Some v => inr (colvec v)
  | None => inl OutOfBounds
  end.

Fixpoint zip_with {A B C : Type} (f : A -> B -> C) (l : list A) (r : list B) : list C :=
  match l, r with
  | a :: l', b :: r' => f a b :: zip_with f l' r'
  | _, _ => []
  end.

(** [m[a:b, :] = rhs] for a right-hand side of the block's shape: rows [a]
    to [b - 1] of every column are overwritten with the matching column of
    [rhs].  The library raises when the block does not lie inside [m]; a
    right-hand side of another shape is refused here (the library also
    takes a scalar or a transposed vector, which the engine's forces are
    not: the statements below keep to six-row forces). *)
Definition set_rows (m : matrix T) (a b : nat) (rhs : matrix T) : lib_error + matrix T :=
  if (a <=? b)
     && forallb (fun col => b <=? length col) m
     && (length rhs =? length m)
     && forallb (fun r => length r =? b - a) rhs
  then inr (zip_with (fun col r => firstn a col ++ r ++ skipn b col) m rhs)
  else inl DimensionMismatch.

(** Consecutive blocks of the given sizes, from the front of [v]. *)
Fixpoint slices (sizes : list nat) (v : list T) : list (list T) :=
  match sizes with
  | [] => []
  | n :: rest => firstn n v :: slices rest (skipn n v)
  end.

(** The index lists [[i + count for i in range(n)]] of the successive
    blocks, [count] starting at [start]. *)
Fixpoint index_blocks (start : nat) (sizes : list nat) : list (list nat) :=
  match sizes with
  | [] => []
  | n :: rest => map (fun i => i + start) (seq 0 n) :: index_blocks (start + n) rest
  end.

End Matrix.

(** ** The wrapped engine's interface

    The methods the adapter calls on [self.model] and on the [biorbd] module,
    grouped by what they return. *)
Module biorbd.

(** Counts: each returns an unsigned integer. *)
Inductive count_method : Type :=
| nbGeneralizedTorque | nbSegment | nbQuat | nbQ | nbQdot | nbQddot | nbRoot
| nbSoftContacts | nbMuscles | nbMarkers | nbRigidContacts | nbContacts | nbDof.

(** Name lists: each returns a sequence of engine strings. *)
Inductive names_method : Type :=
| nameDof | contactNames | softContactNames | muscleNames | markerNames.

(** Queries that return one engine object. *)
Inductive object_method : Type :=
| Model                (* biorbd.Model(path) *)
| DeepCopy | getGravity | segments | globalJCS | localJCS | mass
| CoM | CoMdot | CoMddot | angularMomentum | computeQdot
| segmentAngularVelocity | softContact | torque
| ForwardDynamicsFreeFloatingBase | ForwardDynamics
| ForwardDynamicsConstraintsDirect | InverseDynamics
| ContactForcesFromForwardDynamicsConstraintsDirect
| ComputeConstraintImpulsesDirect | stateSet | activationDot
| muscularJointTorque | marker | path | rigidContactAcceleration | RT
| SoftContactSphere    (* biorbd.SoftContactSphere(soft_contact) *)
| computeForceAtOrigin.

(** Queries that return a sequence of engine objects. *)
Inductive objects_method : Type :=
| markers | markersVelocity.

(** Name-to-index helpers of the [biorbd] module. *)
Inductive index_function : Type :=
| segment_index | marker_index.

Inductive method : Type :=
| Count (c : count_method)
| Names (n : names_method)
| Obj (o : object_method)
| Objs (o : objects_method)
| Index (f : index_function)
| torqueMax
| rigidContactAxisIdx
| setGravity.

(** An engine string; [to_string] gives the Python [str]. *)
Record String : Type := mkString { to_string : string }.

End biorbd.

(** The engine's own types: the entries of a matrix, its native objects
    (vectors, markers, transforms, handles), what [to_mx] makes of an
    object, the two transform operations [marker_velocities] uses, its
    exceptions and its internal state.  The conversions and the transform
    operations act on an object the engine has just returned and are taken
    to be total. *)
Class Engine : Type := {
  scalar : Type;
  zero : scalar;
  native : Type;
  to_mx : native -> matrix scalar;
  (** [rt.transpose()] *)
  transpose : native -> native;
  (** [applyRT rt m]: the marker [m] after [m.applyRT(rt)], which updates
      [m] in place and returns nothing. *)
  applyRT : native -> native -> native;
  (** [biorbd.RotoTrans()], the identity transform. *)
  RotoTrans : native;
  engine_error : Type;
  engine_state : Type
}.

Section Programs.
Context {E : Engine}.

Definition MX : Type := matrix scalar.

(** Python values that cross the adapter's boundary. *)
Inductive value : Type :=
| VNone
| VBool (b : bool)
| VInt (n : Z)
| VStr (s : string)
| VMX (m : MX)
| VNative (o : native)                 (* an engine object, unconverted *)
| VBound (f : biorbd.method)           (* [self.model.f], not called *)
| VSelfModel                           (* [self.model] passed as an argument *)
| VList (l : list value)
| VTuple (l : list value)
| VVecBiorbdVector (l : list MX)       (* [biorbd.VecBiorbdVector] *)
| VBiorbdModel (model : value).        (* a [BiorbdModel] wrapping [model] *)

Definition is_none (v : value) : bool :=
  match v with VNone => true | _ => false end.

(** A value of the framework's matrix type, or a list or tuple of such. *)
Fixpoint is_MX (v : value) : bool :=
  match v with
  | VMX _ => true
  | VList l | VTuple l => forallb is_MX l
  | _ => false
  end.

(** One call on the engine: the method and the positional arguments. *)
Record ecall : Type := Call { callee : biorbd.method; args : list value }.

Definition ret_type (f : biorbd.method) : Type :=
  match f with
  | biorbd.Count _ => nat
  | biorbd.Names _ => list biorbd.String
  | biorbd.Obj _ => native
  | biorbd.Objs _ => list native
  | biorbd.Index _ => nat
  | biorbd.torqueMax => (native * native)%type
  | biorbd.rigidContactAxisIdx => list nat
  | biorbd.setGravity => unit
  end.

Definition result (c : ecall) : Type := ret_type (callee c).

(** Adapter programs: return, call the engine and go on with its answer,
    or fail in the matrix library. *)
Inductive prog (A : Type) : Type :=
| Ret (a : A)
| Do (c : ecall) (k : result c -> prog A)
| Raise (e : lib_error).

Arguments Raise {A} e.

Fixpoint bind {A B : Type} (p : prog A) (f : A -> prog B) : prog B :=
  match p with
  | Ret a => f a
  | Do c k => Do c (fun r => bind (k r) f)
  | Raise e => Raise e
  end.

Definition call (f : biorbd.method) (a : list value) : prog (ret_type f) :=
  Do (Call f a) (fun r => Ret r).

Definition lift {A : Type} (r : lib_error + A) : prog A :=
  match r with inr a => Ret a | inl e => Raise e end.

(** [for x in l: acc = body(acc, x)] *)
Fixpoint for_each {A X : Type} (body : A -> X -> prog A) (l : list X) (acc : A) : prog A :=
  match l with
  | [] => Ret acc
  | x :: rest => bind (body acc x) (for_each body rest)
  end.

(** *** Running a program against an engine *)

Definition handler : Type :=
  forall c : ecall, engine_state -> (engine_error + result c) * engine_state.

Inductive failure : Type :=
| EngineFailure (e : engine_error)
| LibraryFailure (e : lib_error).

(** One entry of the call log: the call and how the engine answered. *)
Record event : Type := Ev { ev_call : ecall; ev_answer : engine_error + result ev_call }.

Definition ev_failed (ev : event) : option engine_error :=
  match ev_answer ev with inl e => Some e | inr _ => None end.

Record outcome (A : Type) : Type :=
  Outcome { returned : failure + A; final : engine_state; log : list event }.

Definition logged {A : Type} (ev : event) (o : outcome A) : outcome A :=
  Outcome (returned o) (final o) (ev :: log o).

Fixpoint run {A : Type} (h : handler) (p : prog A) (s : engine_state) : outcome A :=
  match p with
  | Ret a => Outcome (inr a) s []
  | Raise e => Outcome (inl (LibraryFailure e)) s []
  | Do c k =>
      match h c s with
      | (inl e, s') => Outcome (inl (EngineFailure e)) s' [Ev c (inl e)]
      | (inr r, s') => logged (Ev c (inr r)) (run h (k r) s')
      end
  end.

(** Running [p] and then [f] on its result. *)
Definition and_then {A B : Type} (h : handler) (o : outcome A) (f : A -> prog B) : outcome B :=
  match returned o with
  | inl e => Outcome (inl e) (final o) (log o)
  | inr a =>
      let o' := run h (f a) (final o) in
      Outcome (returned o') (final o') (log o ++ log o')
  end.

(** [k] invocations of [p] one after the other: what each one returned and
    the state after the last. *)
Fixpoint invocations {A : Type} (h : handler) (p : prog A) (k : nat) (s : engine_state)
  : list (failure + A) * engine_state :=
  match k with
  | 0 => ([], s)
  | S k' =>
      let o := run h p s in
      let (rest, s') := invocations h p k' (final o) in
      (returned o :: rest, s')
  end.

(** A run that returns [a] and ends in state [s']. *)
Definition yields {A : Type} (o : outcome A) (a : A) (s' : engine_state) : Prop :=
  returned o = inr a /\ final o = s'.

End Programs.

Arguments Raise {E A} e.

Declare Scope prog_scope.
Delimit Scope prog_scope with prog.
Notation "x <- c ;; k" := (bind c (fun x => k))
  (at level 61, c at next level, right associativity) : prog_scope.
Notation "' pat <- c ;; k" := (bind c (fun x => match x with pat => k end))
  (at level 61, pat pattern, c at next level, right associativity) : prog_scope.
Local Open Scope prog_scope.

(** ** The adapter: class [BiorbdModel]

    Each method is the program its Python body runs.  A call [self.model.f(a,
    b)] is [call f [a; b]]; parameters with a default take it in [dispatch]
    below. *)
Section BiorbdModel.
Context {E : Engine}.

Definition __init__ (bio_model : value) : prog value :=
  match bio_model with
  | VStr _ =>
      model <- call (biorbd.Obj biorbd.Model) [bio_model] ;;
      Ret (VBiorbdModel (VNative model))
  | _ => Ret (VBiorbdModel bio_model)
  end.

Definition deep_copy (args : list value) : prog value :=
  copy <- call (biorbd.Obj biorbd.DeepCopy) args ;;
  __init__ (VNative copy).

Definition gravity : prog MX :=
  g <- call (biorbd.Obj biorbd.getGravity) [] ;; Ret (to_mx g).

Definition set_gravity (newGravity : value) : prog unit :=
  call biorbd.setGravity [newGravity].

Definition nb_tau : prog nat := call (biorbd.Count biorbd.nbGeneralizedTorque) [].

Definition nb_segments : prog nat := call (biorbd.Count biorbd.nbSegment) [].

Definition segment_index (name : value) : prog nat :=
  call (biorbd.Index biorbd.segment_index) [VSelfModel; name].

Definition nb_quaternions : prog nat := call (biorbd.Count biorbd.nbQuat) [].

Definition nb_q : prog nat := call (biorbd.Count biorbd.nbQ) [].

Definition nb_qdot : prog nat := call (biorbd.Count biorbd.nbQdot) [].

Definition nb_qddot : prog nat := call (biorbd.Count biorbd.nbQddot) [].

Definition nb_root : prog nat := call (biorbd.Count biorbd.nbRoot) [].

Definition segments : prog native := call (biorbd.Obj biorbd.segments) [].

Definition global_homogeneous_matrices (args : list value) : prog native :=
  call (biorbd.Obj biorbd.globalJCS) args.

Definition child_homogeneous_matrices (args : list value) : prog native :=
  call (biorbd.Obj biorbd.localJCS) args.

Definition mass : prog MX :=
  m <- call (biorbd.Obj biorbd.mass) [] ;; Ret (to_mx m).

Definition center_of_mass (q updateKin : value) : prog MX :=
  c <- call (biorbd.Obj biorbd.CoM) [q; updateKin] ;; Ret (to_mx c).

Definition center_of_mass_velocity (q qdot updateKin : value) : prog MX :=
  c <- call (biorbd.Obj biorbd.CoMdot) [q; qdot; updateKin] ;; Ret (to_mx c).

Definition center_of_mass_acceleration (q qdot qddot updateKin : value) : prog MX :=
  c <- call (biorbd.Obj biorbd.CoMddot) [q; qdot; qddot; updateKin] ;; Ret (to_mx c).

(** No [to_mx] here: the engine's object is returned as it is. *)
Definition angular_momentum (Q Qdot updateKin : value) : prog native :=
  call (biorbd.Obj biorbd.angularMomentum) [Q; Qdot; updateKin].

Definition reshape_qdot (q qdot k_stab : value) : prog MX :=
  r <- call (biorbd.Obj biorbd.computeQdot) [q; qdot; k_stab] ;; Ret (to_mx r).

(** No [to_mx] here either. *)
Definition segment_angular_velocity (Q Qdot idx updateKin : value) : prog native :=
  call (biorbd.Obj biorbd.segmentAngularVelocity) [Q; Qdot; idx; updateKin].

(** [tuple(s.to_string() for s in names)] *)
Definition to_string_tuple (names : list biorbd.String) : list string :=
  map biorbd.to_string names.

Definition name_dof : prog (list string) :=
  names <- call (biorbd.Names biorbd.nameDof) [] ;; Ret (to_string_tuple names).

Definition contact_names : prog (list string) :=
  names <- call (biorbd.Names biorbd.contactNames) [] ;; Ret (to_string_tuple names).

Definition nb_soft_contacts : prog nat := call (biorbd.Count biorbd.nbSoftContacts) [].

Definition soft_contact_names : prog (list string) :=
  names <- call (biorbd.Names biorbd.softContactNames) [] ;; Ret (to_string_tuple names).

Definition soft_contact (args : list value) : prog native :=
  call (biorbd.Obj biorbd.softContact) args.

Definition muscle_names : prog (list string) :=
  names <- call (biorbd.Names biorbd.muscleNames) [] ;; Ret (to_string_tuple names).

Definition nb_muscles : prog nat := call (biorbd.Count biorbd.nbMuscles) [].

Definition torque (tau_activations q qdot : value) : prog MX :=
  t <- call (biorbd.Obj biorbd.torque) [tau_activations; q; qdot] ;; Ret (to_mx t).

Definition forward_dynamics_free_floating_base (q qdot qddot_joints : value) : prog MX :=
  a <- call (biorbd.Obj biorbd.ForwardDynamicsFreeFloatingBase) [q; qdot; qddot_joints] ;;
  Ret (to_mx a).

Definition forward_dynamics (q qdot tau fext f_contacts : value) : prog MX :=
  a <- call (biorbd.Obj biorbd.ForwardDynamics) [q; qdot; tau; fext; f_contacts] ;;
  Ret (to_mx a).

Definition constrained_forward_dynamics (args : list value) : prog MX :=
  a <- call (biorbd.Obj biorbd.ForwardDynamicsConstraintsDirect) args ;; Ret (to_mx a).

Definition inverse_dynamics (q qdot qddot f_ext f_contacts : value) : prog MX :=
  t <- call (biorbd.Obj biorbd.InverseDynamics) [q; qdot; qddot; f_ext; f_contacts] ;;
  Ret (to_mx t).

Definition contact_forces_from_constrained_forward_dynamics (q qdot tau fext : value)
  : prog MX :=
  f <- call (biorbd.Obj biorbd.ContactForcesFromForwardDynamicsConstraintsDirect)
         [q; qdot; tau; fext] ;;
  Ret (to_mx f).

Definition qdot_from_impact (q qdot_pre_impact : value) : prog MX :=
  v <- call (biorbd.Obj biorbd.ComputeConstraintImpulsesDirect) [q; qdot_pre_impact] ;;
  Ret (to_mx v).

Definition state_set : prog native := call (biorbd.Obj biorbd.stateSet) [].

Definition muscle_activation_dot (muscle_states : value) : prog MX :=
  a <- call (biorbd.Obj biorbd.activationDot) [muscle_states] ;; Ret (to_mx a).

Definition muscle_joint_torque (muscle_states q qdot : value) : prog MX :=
  t <- call (biorbd.Obj biorbd.muscularJointTorque) [muscle_states; q; qdot] ;;
  Ret (to_mx t).

Definition markers (args : list value) : prog value :=
  if length args =? 0 then Ret (VBound (biorbd.Objs biorbd.markers))
  else
    ms <- call (biorbd.Objs biorbd.markers) args ;;
    Ret (VList (map (fun m => VMX (to_mx m)) ms)).

Definition nb_markers : prog nat := call (biorbd.Count biorbd.nbMarkers) [].

Definition marker_index (name : value) : prog nat :=
  call (biorbd.Index biorbd.marker_index) [VSelfModel; name].

Definition marker (args : list value) : prog value :=
  if 1 <? length args then
    m <- call (biorbd.Obj biorbd.marker) args ;; Ret (VNative m)
  else Ret (VBound (biorbd.Obj biorbd.marker)).

Definition nb_rigid_contacts : prog nat := call (biorbd.Count biorbd.nbRigidContacts) [].

Definition nb_contacts : prog nat := call (biorbd.Count biorbd.nbContacts) [].

Definition path : prog native := call (biorbd.Obj biorbd.path) [].

(** [m.applyRT(jcs_t)] in the condition of the comprehension: the marker
    after the call, and the value of the call (the engine's method returns
    nothing, so Python sees [None]). *)
Definition applyRT_call (m jcs_t : native) : native * value :=
  (applyRT jcs_t m, VNone).

(** [[m.to_mx() for m in ms if m.applyRT(jcs_t) is None]]: the condition
    runs first and changes [m], then [m.to_mx()] reads the changed marker. *)
Fixpoint transformed_markers (jcs_t : native) (ms : list native) : list MX :=
  match ms with
  | [] => []
  | m :: rest =>
      let (m', r) := applyRT_call m jcs_t in
      if is_none r then to_mx m' :: transformed_markers jcs_t rest
      else transformed_markers jcs_t rest
  end.

Definition marker_velocities (q qdot update_kin reference_jcs : value) : prog MX :=
  if is_none reference_jcs then
    ms <- call (biorbd.Objs biorbd.markersVelocity) [q; qdot; update_kin] ;;
    Ret (horzcat (map to_mx ms))
  else
    jcs <- global_homogeneous_matrices [q; reference_jcs] ;;
    let jcs_t := if is_none reference_jcs then RotoTrans else transpose jcs in
    ms <- call (biorbd.Objs biorbd.markersVelocity) [q; qdot; update_kin] ;;
    Ret (horzcat (transformed_markers jcs_t ms)).

Definition tau_max (args : list value) : prog (MX * MX) :=
  ' (torque_max, torque_min) <- call biorbd.torqueMax args ;;
  Ret (to_mx torque_max, to_mx torque_min).

Definition rigid_contact_acceleration (q qdot qddot idx updateKin : value) : prog MX :=
  a <- call (biorbd.Obj biorbd.rigidContactAcceleration) [q; qdot; qddot; idx; updateKin] ;;
  Ret (to_mx a).

Definition object_homogeneous_matrix (args : list value) : prog native :=
  call (biorbd.Obj biorbd.RT) args.

Definition nb_dof : prog nat := call (biorbd.Count biorbd.nbDof) [].

Definition marker_names : prog (list string) :=
  names <- call (biorbd.Names biorbd.markerNames) [] ;; Ret (to_string_tuple names).

(** One turn of the loop of [soft_contact_forces], for contact [i_sc]. *)
Definition soft_contact_step (q qdot : value) (soft_contact_forces : MX) (i_sc : nat)
  : prog MX :=
  soft_contact <- soft_contact [VInt (Z.of_nat i_sc)] ;;
  sphere <- call (biorbd.Obj biorbd.SoftContactSphere) [VNative soft_contact] ;;
  force <- call (biorbd.Obj biorbd.computeForceAtOrigin)
             [VNative sphere; VSelfModel; q; qdot] ;;
  lift (set_rows soft_contact_forces (i_sc * 6) ((i_sc + 1) * 6) (to_mx force)).

Definition soft_contact_forces (q qdot : value) : prog MX :=
  rows <- nb_soft_contacts ;;
  let soft_contact_forces := zeros zero (rows * 6) 1 in
  n <- nb_soft_contacts ;;
  for_each (soft_contact_step q qdot) (seq 0 n) soft_contact_forces.

(** The loop state of [reshape_fext_to_fcontact]: [count] and
    [f_contact_vec]. *)
Definition reshape_step (fext : MX) (st : nat * list MX) (ii : nat)
  : prog (nat * list MX) :=
  let (count, f_contact_vec) := st in
  axes <- call biorbd.rigidContactAxisIdx [VInt (Z.of_nat ii)] ;;
  let n_f_contact := length axes in
  let idx := map (fun i => i + count) (seq 0 n_f_contact) in
  block <- lift (getitem fext idx) ;;
  Ret (count + n_f_contact, f_contact_vec ++ [block]).

Definition reshape_fext_to_fcontact (fext : MX) : prog (list MX) :=
  n <- nb_rigid_contacts ;;
  st <- for_each (reshape_step fext) (seq 0 n) (0, []) ;;
  Ret (snd st).

(** [t[i]] on a tuple. *)
Definition tuple_getitem {A : Type} (t : list A) (i : nat) : lib_error + A :=
  match nth_error t i with
  | Some x => inr x
  | None => inl IndexError
  end.

(** [self.marker_names[self.marker_index(name)]] *)
Definition marker_name_at_its_index (name : string) : prog string :=
  names <- marker_names ;;
  i <- marker_index (VStr name) ;;
  lift (tuple_getitem names i).

End BiorbdModel.

(** ** The adapter's public operations, with their arguments

    An optional parameter is [None] when the caller leaves it out; [dispatch]
    fills in the default of the Python signature and converts what the method
    returns to a [value]. *)
Section Operations.
Context {E : Engine}.

Inductive op : Type :=
| op_init (bio_model : value)
| op_deep_copy (args : list value)
| op_gravity
| op_set_gravity (newGravity : value)
| op_nb_tau
| op_nb_segments
| op_segment_index (name : value)
| op_nb_quaternions
| op_nb_q
| op_nb_qdot
| op_nb_qddot
| op_nb_root
| op_segments
| op_global_homogeneous_matrices (args : list value)
| op_child_homogeneous_matrices (args : list value)
| op_mass
| op_center_of_mass (q : value) (updateKin : option value)
| op_center_of_mass_velocity (q qdot : value) (updateKin : option value)
| op_center_of_mass_acceleration (q qdot qddot : value) (updateKin : option value)
| op_angular_momentum (Q Qdot : value) (updateKin : option value)
| op_reshape_qdot (q qdot : value) (k_stab : option value)
| op_segment_angular_velocity (Q Qdot idx : value) (updateKin : option value)
| op_name_dof
| op_contact_names
| op_nb_soft_contacts
| op_soft_contact_names
| op_soft_contact (args : list value)
| op_muscle_names
| op_nb_muscles
| op_torque (tau_activations q qdot : value)
| op_forward_dynamics_free_floating_base (q qdot qddot_joints : value)
| op_forward_dynamics (q qdot tau : value) (fext f_contacts : option value)
| op_constrained_forward_dynamics (args : list value)
| op_inverse_dynamics (q qdot qddot : value) (f_ext f_contacts : option value)
| op_contact_forces_from_constrained_forward_dynamics (q qdot tau : value)
    (fext : option value)
| op_qdot_from_impact (q qdot_pre_impact : value)
| op_state_set
| op_muscle_activation_dot (muscle_states : value)
| op_muscle_joint_torque (muscle_states q qdot : value)
| op_markers (args : list value)
| op_nb_markers
| op_marker_index (name : value)
| op_marker (args : list value)
| op_nb_rigid_contacts
| op_nb_contacts
| op_path
| op_marker_velocities (q qdot : value) (update_kin reference_jcs : option value)
| op_tau_max (args : list value)
| op_rigid_contact_acceleration (q qdot qddot : value) (idx updateKin : option value)
| op_object_homogeneous_matrix (args : list value)
| op_nb_dof
| op_marker_names
| op_soft_contact_forces (q qdot : value)
| op_reshape_fext_to_fcontact (fext : MX).

Definition or_default (d : value) (a : option value) : value :=
  match a with Some v => v | None => d end.

Definition an_int (p : prog nat) : prog value := n <- p ;; Ret (VInt (Z.of_nat n)).
Definition an_MX (p : prog MX) : prog value := m <- p ;; Ret (VMX m).
Definition an_object (p : prog native) : prog value := o <- p ;; Ret (VNative o).
Definition a_str_tuple (p : prog (list string)) : prog value :=
  l <- p ;; Ret (VTuple (map VStr l)).

Definition dispatch (o : op) : prog value :=
  match o with
  | op_init bio_model => __init__ bio_model
  | op_deep_copy args => deep_copy args
  | op_gravity => an_MX gravity
  | op_set_gravity g => _ <- set_gravity g ;; Ret VNone
  | op_nb_tau => an_int nb_tau
  | op_nb_segments => an_int nb_segments
  | op_segment_index name => an_int (segment_index name)
  | op_nb_quaternions => an_int nb_quaternions
  | op_nb_q => an_int nb_q
  | op_nb_qdot => an_int nb_qdot
  | op_nb_qddot => an_int nb_qddot
  | op_nb_root => an_int nb_root
  | op_segments => an_object segments
  | op_global_homogeneous_matrices args => an_object (global_homogeneous_matrices args)
  | op_child_homogeneous_matrices args => an_object (child_homogeneous_matrices args)
  | op_mass => an_MX mass
  | op_center_of_mass q uk => an_MX (center_of_mass q (or_default (VBool true) uk))
  | op_center_of_mass_velocity q qdot uk =>
      an_MX (center_of_mass_velocity q qdot (or_default (VBool true) uk))
  | op_center_of_mass_acceleration q qdot qddot uk =>
      an_MX (center_of_mass_acceleration q qdot qddot (or_default (VBool true) uk))
  | op_angular_momentum Q Qdot uk =>
      an_object (angular_momentum Q Qdot (or_default (VBool true) uk))
  | op_reshape_qdot q qdot k_stab =>
      an_MX (reshape_qdot q qdot (or_default (VInt 1) k_stab))
  | op_segment_angular_velocity Q Qdot idx uk =>
      an_object (segment_angular_velocity Q Qdot idx (or_default (VBool true) uk))
  | op_name_dof => a_str_tuple name_dof
  | op_contact_names => a_str_tuple contact_names
  | op_nb_soft_contacts => an_int nb_soft_contacts
  | op_soft_contact_names => a_str_tuple soft_contact_names
  | op_soft_contact args => an_object (soft_contact args)
  | op_muscle_names => a_str_tuple muscle_names
  | op_nb_muscles => an_int nb_muscles
  | op_torque a q qdot => an_MX (torque a q qdot)
  | op_forward_dynamics_free_floating_base q qdot qddot_joints =>
      an_MX (forward_dynamics_free_floating_base q qdot qddot_joints)
  | op_forward_dynamics q qdot tau fext f_contacts =>
      an_MX (forward_dynamics q qdot tau (or_default VNone fext)
               (or_default VNone f_contacts))
  | op_constrained_forward_dynamics args => an_MX (constrained_forward_dynamics args)
  | op_inverse_dynamics q qdot qddot f_ext f_contacts =>
      an_MX (inverse_dynamics q qdot qddot (or_default VNone f_ext)
               (or_default VNone f_contacts))
  | op_contact_forces_from_constrained_forward_dynamics q qdot tau fext =>
      an_MX (contact_forces_from_constrained_forward_dynamics q qdot tau
               (or_default VNone fext))
  | op_qdot_from_impact q qdot_pre_impact => an_MX (qdot_from_impact q qdot_pre_impact)
  | op_state_set => an_object state_set
  | op_muscle_activation_dot ms => an_MX (muscle_activation_dot ms)
  | op_muscle_joint_torque ms q qdot => an_MX (muscle_joint_torque ms q qdot)
  | op_markers args => markers args
  | op_nb_markers => an_int nb_markers
  | op_marker_index name => an_int (marker_index name)
  | op_marker args => marker args
  | op_nb_rigid_contacts => an_int nb_rigid_contacts
  | op_nb_contacts => an_int nb_contacts
  | op_path => an_object path
  | op_marker_velocities q qdot uk ref =>
      an_MX (marker_velocities q qdot (or_default (VBool true) uk) (or_default VNone ref))
  | op_tau_max args => ' (a, b) <- tau_max args ;; Ret (VTuple [VMX a; VMX b])
  | op_rigid_contact_acceleration q qdot qddot idx uk =>
      an_MX (rigid_contact_acceleration q qdot qddot (or_default VNone idx)
               (or_default (VBool true) uk))
  | op_object_homogeneous_matrix args => an_object (object_homogeneous_matrix args)
  | op_nb_dof => an_int nb_dof
  | op_marker_names => a_str_tuple marker_names
  | op_soft_contact_forces q qdot => an_MX (soft_contact_forces q qdot)
  | op_reshape_fext_to_fcontact fext =>
      l <- reshape_fext_to_fcontact fext ;; Ret (VVecBiorbdVector l)
  end.

(** The count and metadata accessors, with the engine getter each reads. *)
Definition count_accessor (o : op) : option biorbd.count_method :=
  match o with
  | op_nb_q => Some biorbd.nbQ
  | op_nb_qdot => Some biorbd.nbQdot
  | op_nb_qddot => Some biorbd.nbQddot
  | op_nb_tau => Some biorbd.nbGeneralizedTorque
  | op_nb_quaternions => Some biorbd.nbQuat
  | op_nb_root => Some biorbd.nbRoot
  | op_nb_segments => Some biorbd.nbSegment
  | op_nb_markers => Some biorbd.nbMarkers
  | op_nb_muscles => Some biorbd.nbMuscles
  | op_nb_contacts => Some biorbd.nbContacts
  | op_nb_rigid_contacts => Some biorbd.nbRigidContacts
  | op_nb_soft_contacts => Some biorbd.nbSoftContacts
  | op_nb_dof => Some biorbd.nbDof
  | _ => None
  end.

(** The operations whose body applies [to_mx] to what the engine returns. *)
Definition converts (o : op) : bool :=
  match o with
  | op_gravity | op_mass | op_center_of_mass _ _ | op_center_of_mass_velocity _ _ _
  | op_center_of_mass_acceleration _ _ _ _ | op_reshape_qdot _ _ _ | op_torque _ _ _
  | op_forward_dynamics_free_floating_base _ _ _ | op_forward_dynamics _ _ _ _ _
  | op_constrained_forward_dynamics _ | op_inverse_dynamics _ _ _ _ _
  | op_contact_forces_from_constrained_forward_dynamics _ _ _ _
  | op_qdot_from_impact _ _ | op_muscle_activation_dot _ | op_muscle_joint_torque _ _ _
  | op_marker_velocities _ _ _ _ | op_tau_max _
  | op_rigid_contact_acceleration _ _ _ _ _ | op_soft_contact_forces _ _ => true
  | op_markers args => negb (length args =? 0)
  | _ => false
  end.

(** The operations that index or assign matrices themselves. *)
Definition uses_matrix_indexing (o : op) : bool :=
  match o with
  | op_soft_contact_forces _ _ | op_reshape_fext_to_fcontact _ => true
  | _ => false
  end.

(** A program with no failure of its own: whatever the engine answers, it
    never reaches [Raise]. *)
Inductive raise_free {A : Type} : prog A -> Prop :=
| raise_free_Ret (a : A) : raise_free (Ret a)
| raise_free_Do (c : ecall) (k : result c -> prog A) :
    (forall r, raise_free (k r)) -> raise_free (Do c k).

(** *** What a run shows *)

(** The engine raised [e] at some call of the log. *)
Definition engine_raised (l : list event) (e : engine_error) : Prop :=
  exists ev, In ev l /\ ev_failed ev = Some e.

Definition failed {A : Type} (o : outcome A) : Prop :=
  exists f, returned o = inl f.

(** The calls of a log, in order. *)
Definition calls (l : list event) : list ecall := map (@ev_call E) l.

Definition invokes (f : biorbd.method) (l : list event) : Prop :=
  exists c, In c (calls l) /\ callee c = f.

(** No call of the log raised. *)
Definition clean (l : list event) : Prop :=
  Forall (fun ev => ev_failed ev = None) l.

(** The propagation policy as the specification words it, for one
    operation run on one engine: an engine exception comes out as it was
    raised, and the operation fails exactly when an engine call fails. *)
Definition transparent_conduit (h : handler) (o : op) (s : engine_state) : Prop :=
  let out := run h (dispatch o) s in
  (forall e, engine_raised (log out) e -> returned out = inl (EngineFailure e))
  /\ (failed out <-> exists e, engine_raised (log out) e).


(** *** The engine methods an operation uses *)

(** The engine methods the body of an operation names, by the branch its
    arguments select. *)
Definition footprint (o : op) : list biorbd.method :=
  match o with
  | op_init (VStr _) => [biorbd.Obj biorbd.Model]
  | op_init _ => []
  | op_deep_copy _ => [biorbd.Obj biorbd.DeepCopy]
  | op_gravity => [biorbd.Obj biorbd.getGravity]
  | op_set_gravity _ => [biorbd.setGravity]
  | op_nb_tau => [biorbd.Count biorbd.nbGeneralizedTorque]
  | op_nb_segments => [biorbd.Count biorbd.nbSegment]
  | op_segment_index _ => [biorbd.Index biorbd.segment_index]
  | op_nb_quaternions => [biorbd.Count biorbd.nbQuat]
  | op_nb_q => [biorbd.Count biorbd.nbQ]
  | op_nb_qdot => [biorbd.Count biorbd.nbQdot]
  | op_nb_qddot => [biorbd.Count biorbd.nbQddot]
  | op_nb_root => [biorbd.Count biorbd.nbRoot]
  | op_segments => [biorbd.Obj biorbd.segments]
  | op_global_homogeneous_matrices _ => [biorbd.Obj biorbd.globalJCS]
  | op_child_homogeneous_matrices _ => [biorbd.Obj biorbd.localJCS]
  | op_mass => [biorbd.Obj biorbd.mass]
  | op_center_of_mass _ _ => [biorbd.Obj biorbd.CoM]
  | op_center_of_mass_velocity _ _ _ => [biorbd.Obj biorbd.CoMdot]
  | op_center_of_mass_acceleration _ _ _ _ => [biorbd.Obj biorbd.CoMddot]
  | op_angular_momentum _ _ _ => [biorbd.Obj biorbd.angularMomentum]
  | op_reshape_qdot _ _ _ => [biorbd.Obj biorbd.computeQdot]
  | op_segment_angular_velocity _ _ _ _ => [biorbd.Obj biorbd.segmentAngularVelocity]
  | op_name_dof => [biorbd.Names biorbd.nameDof]
  | op_contact_names => [biorbd.Names biorbd.contactNames]
  | op_nb_soft_contacts => [biorbd.Count biorbd.nbSoftContacts]
  | op_soft_contact_names => [biorbd.Names biorbd.softContactNames]
  | op_soft_contact _ => [biorbd.Obj biorbd.softContact]
  | op_muscle_names => [biorbd.Names biorbd.muscleNames]
  | op_nb_muscles => [biorbd.Count biorbd.nbMuscles]
  | op_torque _ _ _ => [biorbd.Obj biorbd.torque]
  | op_forward_dynamics_free_floating_base _ _ _ =>
      [biorbd.Obj biorbd.ForwardDynamicsFreeFloatingBase]
  | op_forward_dynamics _ _ _ _ _ => [biorbd.Obj biorbd.ForwardDynamics]
  | op_constrained_forward_dynamics _ => [biorbd.Obj biorbd.ForwardDynamicsConstraintsDirect]
  | op_inverse_dynamics _ _ _ _ _ => [biorbd.Obj biorbd.InverseDynamics]
  | op_contact_forces_from_constrained_forward_dynamics _ _ _ _ =>
      [biorbd.Obj biorbd.ContactForcesFromForwardDynamicsConstraintsDirect]
  | op_qdot_from_impact _ _ => [biorbd.Obj biorbd.ComputeConstraintImpulsesDirect]
  | op_state_set => [biorbd.Obj biorbd.stateSet]
  | op_muscle_activation_dot _ => [biorbd.Obj biorbd.activationDot]
  | op_muscle_joint_torque _ _ _ => [biorbd.Obj biorbd.muscularJointTorque]
  | op_markers args => if length args =? 0 then [] else [biorbd.Objs biorbd.markers]
  | op_nb_markers => [biorbd.Count biorbd.nbMarkers]
  | op_marker_index _ => [biorbd.Index biorbd.marker_index]
  | op_marker args => if 1 <? length args then [biorbd.Obj biorbd.marker] else []
  | op_nb_rigid_contacts => [biorbd.Count biorbd.nbRigidContacts]
  | op_nb_contacts => [biorbd.Count biorbd.nbContacts]
  | op_path => [biorbd.Obj biorbd.path]
  | op_marker_velocities _ _ _ reference_jcs =>
      if is_none (or_default VNone reference_jcs)
      then [biorbd.Objs biorbd.markersVelocity]
      else [biorbd.Obj biorbd.globalJCS; biorbd.Objs biorbd.markersVelocity]
  | op_tau_max _ => [biorbd.torqueMax]
  | op_rigid_contact_acceleration _ _ _ _ _ => [biorbd.Obj biorbd.rigidContactAcceleration]
  | op_object_homogeneous_matrix _ => [biorbd.Obj biorbd.RT]
  | op_nb_dof => [biorbd.Count biorbd.nbDof]
  | op_marker_names => [biorbd.Names biorbd.markerNames]
  | op_soft_contact_forces _ _ =>
      [biorbd.Count biorbd.nbSoftContacts; biorbd.Obj biorbd.softContact;
       biorbd.Obj biorbd.SoftContactSphere; biorbd.Obj biorbd.computeForceAtOrigin]
  | op_reshape_fext_to_fcontact _ =>
      [biorbd.Count biorbd.nbRigidContacts; biorbd.rigidContactAxisIdx]
  end.

(** A program all of whose engine calls are to methods satisfying [P],
    whatever the engine answers. *)
Inductive only_calls {A : Type} (P : biorbd.method -> Prop) : prog A -> Prop :=
| only_calls_Ret (a : A) : only_calls P (Ret a)
| only_calls_Raise (e : lib_error) : only_calls P (Raise e)
| only_calls_Do (c : ecall) (k : result c -> prog A) :
    P (callee c) -> (forall r, only_calls P (k r)) -> only_calls P (Do c k).

(** The number of engine calls of an operation without a loop, by the branch
    its arguments select. *)
Definition call_bound (o : op) : option nat :=
  match o with
  | op_soft_contact_forces _ _ | op_reshape_fext_to_fcontact _ => None
  | op_init (VStr _) => Some 1
  | op_init _ => Some 0
  | op_markers args => Some (if length args =? 0 then 0 else 1)
  | op_marker args => Some (if 1 <? length args then 1 else 0)
  | op_marker_velocities _ _ _ reference_jcs =>
      Some (if is_none (or_default VNone reference_jcs) then 1 else 2)
  | _ => Some 1
  end.

(** The operations whose body returns the engine's object as it is. *)
Definition returns_native (o : op) : bool :=
  match o with
  | op_segments | op_global_homogeneous_matrices _ | op_child_homogeneous_matrices _
  | op_angular_momentum _ _ _ | op_segment_angular_velocity _ _ _ _
  | op_soft_contact _ | op_state_set | op_path | op_object_homogeneous_matrix _ => true
  | _ => false
  end.

(** The name accessors, with the engine getter each reads. *)
Definition names_accessor (o : op) : option biorbd.names_method :=
  match o with
  | op_name_dof => Some biorbd.nameDof
  | op_contact_names => Some biorbd.contactNames
  | op_soft_contact_names => Some biorbd.softContactNames
  | op_muscle_names => Some biorbd.muscleNames
  | op_marker_names => Some biorbd.markerNames
  | _ => None
  end.

(** The calls [rigidContactAxisIdx(ii)] for [ii] in [range(n)], and the log
    of these calls from contact [k] on when the engine answers the lists
    [axes]. *)
Definition axis_call (ii : nat) : ecall :=
  Call biorbd.rigidContactAxisIdx [VInt (Z.of_nat ii)].

Definition axis_calls (n : nat) : list ecall := map axis_call (seq 0 n).

Fixpoint axis_events (k : nat) (axes : list (list nat)) : list event :=
  match axes with
  | [] => []
  | a :: rest => Ev (axis_call k) (inr a) :: axis_events (S k) rest
  end.

(** *** What a forwarding operation asks the engine *)

(** The operations whose body is one call of an engine method that answers
    an object, returned as it is or through [to_mx]: the method, and the
    arguments in the order the body passes them, defaults filled in. *)
Definition forwarded_call (o : op) : option (biorbd.object_method * list value) :=
  match o with
  | op_gravity => Some (biorbd.getGravity, [])
  | op_segments => Some (biorbd.segments, [])
  | op_global_homogeneous_matrices args => Some (biorbd.globalJCS, args)
  | op_child_homogeneous_matrices args => Some (biorbd.localJCS, args)
  | op_mass => Some (biorbd.mass, [])
  | op_center_of_mass q uk => Some (biorbd.CoM, [q; or_default (VBool true) uk])
  | op_center_of_mass_velocity q qdot uk =>
      Some (biorbd.CoMdot, [q; qdot; or_default (VBool true) uk])
  | op_center_of_mass_acceleration q qdot qddot uk =>
      Some (biorbd.CoMddot, [q; qdot; qddot; or_default (VBool true) uk])
  | op_angular_momentum Q Qdot uk =>
      Some (biorbd.angularMomentum, [Q; Qdot; or_default (VBool true) uk])
  | op_reshape_qdot q qdot k_stab =>
      Some (biorbd.computeQdot, [q; qdot; or_default (VInt 1) k_stab])
  | op_segment_angular_velocity Q Qdot idx uk =>
      Some (biorbd.segmentAngularVelocity, [Q; Qdot; idx; or_default (VBool true) uk])
  | op_soft_contact args => Some (biorbd.softContact, args)
  | op_torque tau_activations q qdot => Some (biorbd.torque, [tau_activations; q; qdot])
  | op_forward_dynamics_free_floating_base q qdot qddot_joints =>
      Some (biorbd.ForwardDynamicsFreeFloatingBase, [q; qdot; qddot_joints])
  | op_forward_dynamics q qdot tau fext f_contacts =>
      Some (biorbd.ForwardDynamics,
            [q; qdot; tau; or_default VNone fext; or_default VNone f_contacts])
  | op_constrained_forward_dynamics args =>
      Some (biorbd.ForwardDynamicsConstraintsDirect, args)
  | op_inverse_dynamics q qdot qddot f_ext f_contacts =>
      Some (biorbd.InverseDynamics,
            [q; qdot; qddot; or_default VNone f_ext; or_default VNone f_contacts])
  | op_contact_forces_from_constrained_forward_dynamics q qdot tau fext =>
      Some (biorbd.ContactForcesFromForwardDynamicsConstraintsDirect,
            [q; qdot; tau; or_default VNone fext])
  | op_qdot_from_impact q qdot_pre_impact =>
      Some (biorbd.ComputeConstraintImpulsesDirect, [q; qdot_pre_impact])
  | op_state_set => Some (biorbd.stateSet, [])
  | op_muscle_activation_dot muscle_states => Some (biorbd.activationDot, [muscle_states])
  | op_muscle_joint_torque muscle_states q qdot =>
      Some (biorbd.muscularJointTorque, [muscle_states; q; qdot])
  | op_path => Some (biorbd.path, [])
  | op_rigid_contact_acceleration q qdot qddot idx uk =>
      Some (biorbd.rigidContactAcceleration,
            [q; qdot; qddot; or_default VNone idx; or_default (VBool true) uk])
  | op_object_homogeneous_matrix args => Some (biorbd.RT, args)
  | _ => None
  end.

(** The equivalence of the two branches of [marker_velocities] as the
    specification words it, for one engine, one state and one reference
    frame: called from the same state, with and without the frame, it
    returns the same matrix. *)
Definition identity_frame_equivalence (h : handler) (q qdot update_kin reference_jcs : value)
           (s : engine_state) : Prop :=
  returned (run h (marker_velocities q qdot update_kin reference_jcs) s)
  = returned (run h (marker_velocities q qdot update_kin VNone) s).

End Operations.

(** ** Assumptions on the engine

    The engine is not part of the adapter; a statement that needs one of its
    properties names it here and takes it as a premise. *)
Section EngineContracts.
Context {E : Engine}.
Variable h : handler.

(** In state [s] the call [c] answers [r] and leaves the state as it is. *)
Definition reads (c : ecall) (s : engine_state) (r : result c) : Prop :=
  h c s = (inr r, s).

(** The rigid contacts as the engine presents them in state [s]: their
    number, and the axis indices of each one. *)
Definition rigid_contacts (s : engine_state) (axes : list (list nat)) : Prop :=
  reads (Call (biorbd.Count biorbd.nbRigidContacts) []) s (length axes)
  /\ forall ii, ii < length axes ->
       reads (Call biorbd.rigidContactAxisIdx [VInt (Z.of_nat ii)]) s (nth ii axes []).

(** The three engine calls of the soft-contact loop never raise. *)
Definition soft_contact_calls_succeed : Prop :=
  forall o a s,
    In o [biorbd.softContact; biorbd.SoftContactSphere; biorbd.computeForceAtOrigin] ->
    exists r, fst (h (Call (biorbd.Obj o) a) s) = inr r.

(** Every force the engine computes at the origin is a 6 x 1 wrench. *)
Definition wrenches_have_six_rows : Prop :=
  forall a s w,
    fst (h (Call (biorbd.Obj biorbd.computeForceAtOrigin) a) s) = inr w ->
    exists col, to_mx w = colvec col /\ length col = 6.

(** Modelled from the spec: [biorbd.marker_index], the name-to-index helper
    of the engine's Python package, is not among the sources.  The spec
    gives the markers as a named, index-addressable collection with a
    stable index-to-name mapping; the helper is taken to answer the first
    index at which the collection holds the name. *)
Fixpoint index_of (name : string) (names : list string) : option nat :=
  match names with
  | [] => None
  | n :: rest =>
      if String.eqb n name then Some 0
      else match index_of name rest with Some i => Some (S i) | None => None end
  end.

Definition marker_index_looks_up (s : engine_state) (names : list biorbd.String) : Prop :=
  reads (Call (biorbd.Names biorbd.markerNames) []) s names
  /\ forall name i,
       index_of name (map biorbd.to_string names) = Some i ->
       reads (Call (biorbd.Index biorbd.marker_index) [VSelfModel; VStr name]) s i.

(** Modelled from the spec: the engine's own bookkeeping is not among the
    sources.  The spec gives dofs and markers as named, index-addressable
    collections that the engine exposes both as a count and as a name
    sequence: a count is the size of the collection the names list. *)
Definition counts_are_sizes (s : engine_state) : Prop :=
  exists dofs marks,
    reads (Call (biorbd.Names biorbd.nameDof) []) s dofs
    /\ reads (Call (biorbd.Count biorbd.nbQ) []) s (length dofs)
    /\ reads (Call (biorbd.Names biorbd.markerNames) []) s marks
    /\ reads (Call (biorbd.Count biorbd.nbMarkers) []) s (length marks).

(** The transform algebra [marker_velocities] relies on. *)
Definition identity_transform_laws : Prop :=
  transpose RotoTrans = RotoTrans /\ forall m, applyRT RotoTrans m = m.

(** The total number of contact axes, and the position in the flat vector
    at which the block of contact [i] starts. *)
Definition total_axes (axes : list (list nat)) : nat := list_sum (map (@length nat) axes).
Definition offset (axes : list (list nat)) (i : nat) : nat :=
  list_sum (map (@length nat) (firstn i axes)).

(** The engine calls of the loop from contact [i] on, all answered, with
    the forces they returned: for each contact its handle is fetched, cast
    to a sphere, and the sphere's force at the origin computed. *)
Inductive wrench_log (q qdot : value) : nat -> list event -> list native -> Prop :=
| wrench_log_done (i : nat) : wrench_log q qdot i [] []
| wrench_log_next (i : nat) (contact sphere force : native)
                  (l : list event) (forces : list native) :
    wrench_log q qdot (S i) l forces ->
    wrench_log q qdot i
      (Ev (Call (biorbd.Obj biorbd.softContact) [VInt (Z.of_nat i)]) (inr contact)
       :: Ev (Call (biorbd.Obj biorbd.SoftContactSphere) [VNative contact]) (inr sphere)
       :: Ev (Call (biorbd.Obj biorbd.computeForceAtOrigin)
                [VNative sphere; VSelfModel; q; qdot]) (inr force)
       :: l)
      (force :: forces).

End EngineContracts.

(** ** A small concrete engine

    A two-dof model with three markers, two rigid contacts (two axes and one
    axis) and two soft contacts, over integer entries.  Its state is the
    gravity set last. *)
Module Demo.

Inductive object : Type :=
| Vector (v : list Z)
| Vector3d (x y z : Z)
| Transform (rows : list (list Z))
| Handle (n : nat).

Definition dot (a b : list Z) : Z := fold_right Z.add 0%Z (zip_with Z.mul a b).

Fixpoint transposed (rows : list (list Z)) : list (list Z) :=
  match rows with
  | [] => []
  | [r] => map (fun x => [x]) r
  | r :: rest => zip_with cons r (transposed rest)
  end.

Definition identity4 : list (list Z) :=
  [[1; 0; 0; 0]; [0; 1; 0; 0]; [0; 0; 1; 0]; [0; 0; 0; 1]]%Z.

Definition object_to_mx (o : object) : matrix Z :=
  match o with
  | Vector v => [v]
  | Vector3d x y z => [[x; y; z]]
  | Transform rows => transposed rows
  | Handle _ => []
  end.

Definition object_transpose (o : object) : object :=
  match o with Transform rows => Transform (transposed rows) | _ => o end.

Definition object_applyRT (rt m : object) : object :=
  match rt, m with
  | Transform rows, Vector3d x y z =>
      match map (fun row => dot row [x; y; z; 1%Z]) rows with
      | [a; b; c; _] => Vector3d a b c
      | _ => m
      end
  | _, _ => m
  end.

#[export] Instance engine : Engine := {|
  scalar := Z;
  zero := 0%Z;
  native := object;
  to_mx := object_to_mx;
  transpose := object_transpose;
  applyRT := object_applyRT;
  RotoTrans := Transform identity4;
  engine_error := string;
  engine_state := Z
|}.

Definition dof_names : list string := ["Seg1_TransY"; "Seg1_RotX"]%string.
Definition marker_list : list string := ["m0"; "m1"; "m2"]%string.
Definition contact_axes : list (list nat) := [[1; 2]; [2]].

Definition count (c : biorbd.count_method) : nat :=
  match c with
  | biorbd.nbQ | biorbd.nbQdot | biorbd.nbQddot | biorbd.nbDof
  | biorbd.nbGeneralizedTorque => 2
  | biorbd.nbMarkers => 3
  | biorbd.nbRigidContacts | biorbd.nbSoftContacts => 2
  | biorbd.nbContacts => 3
  | biorbd.nbSegment | biorbd.nbRoot => 1
  | biorbd.nbQuat | biorbd.nbMuscles => 0
  end.

Definition names (n : biorbd.names_method) : list biorbd.String :=
  map biorbd.mkString
    match n with
    | biorbd.nameDof => dof_names
    | biorbd.markerNames => marker_list
    | biorbd.contactNames => ["c0_Y"; "c0_Z"; "c1_Z"]%string
    | biorbd.softContactNames => ["s0"; "s1"]%string
    | biorbd.muscleNames => []
    end.

Definition first_nat (a : list value) : nat :=
  match a with
  | VInt i :: _ => Z.to_nat i
  | VNative (Handle i) :: _ => i
  | _ => 0
  end.

Definition query (o : biorbd.object_method) (a : list value) (g : Z) : object :=
  match o with
  | biorbd.getGravity => Vector3d 0 0 g
  | biorbd.globalJCS | biorbd.localJCS | biorbd.RT => Transform identity4
  | biorbd.softContact | biorbd.SoftContactSphere => Handle (first_nat a)
  | biorbd.computeForceAtOrigin => Vector [Z.of_nat (first_nat a); 0; 0; 0; 0; 1]%Z
  | biorbd.marker => Vector3d 1 2 3
  | biorbd.CoM | biorbd.CoMdot | biorbd.CoMddot | biorbd.angularMomentum
  | biorbd.segmentAngularVelocity => Vector3d 0 0 0
  | biorbd.Model | biorbd.DeepCopy | biorbd.segments | biorbd.stateSet
  | biorbd.path => Handle 0
  | _ => Vector [0; 0]%Z
  end.

Definition lookup (names : list string) (a : list value) : string + nat :=
  match a with
  | [VSelfModel; VStr name] =>
      match index_of name names with
      | Some i => inr i
      | None => inl (name ++ " is not in the biorbd model")%string
      end
  | _ => inl "wrong arguments"%string
  end.

Definition answer (c : ecall) (g : Z) : (string + result c) * Z :=
  match c with
  | Call f a =>
      match f return (string + ret_type f) * Z with
      | biorbd.Count n => (inr (count n), g)
      | biorbd.Names n => (inr (names n), g)
      | biorbd.Obj o => (inr (query o a g), g)
      | biorbd.Objs _ => (inr [Vector3d 1 2 3; Vector3d 4 5 6; Vector3d 7 8 9]%Z, g)
      | biorbd.Index biorbd.marker_index => (lookup marker_list a, g)
      | biorbd.Index biorbd.segment_index => (lookup ["Seg1"%string] a, g)
      | biorbd.torqueMax => (inr (Vector [10; 10]%Z, Vector [-10; -10]%Z), g)
      | biorbd.rigidContactAxisIdx => (inr (nth (first_nat a) contact_axes []), g)
      | biorbd.setGravity =>
          match a with
          | [VInt g'] => (inr tt, g')
          | _ => (inl "setGravity: wrong arguments"%string, g)
          end
      end
  end.

(** The same model with cached kinematics.  Here the state is the
    generalized coordinate the kinematics were last updated with.  The
    frame queries update them (the engine's [globalJCS] does by default);
    [markersVelocity] updates them when its flag is not false and reads them
    as they are when it is.  The velocity of its one marker is read off the
    kinematics. *)
Definition updated_with (a : list value) (cached : Z) : Z :=
  match a with VInt q :: _ => q | _ => cached end.

Definition caching (c : ecall) (cached : Z) : (string + result c) * Z :=
  match c with
  | Call f a =>
      match f return (string + ret_type f) * Z with
      | biorbd.Count n => (inr (count n), cached)
      | biorbd.Names n => (inr (names n), cached)
      | biorbd.Obj o =>
          match o with
          | biorbd.globalJCS => (inr (Transform identity4), updated_with a cached)
          | _ => (inr (query o a 0%Z), cached)
          end
      | biorbd.Objs o =>
          match o, a with
          | biorbd.markersVelocity, [_; _; VBool false] =>
              (inr [Vector3d cached cached cached], cached)
          | _, _ =>
              (inr [Vector3d (updated_with a cached) (updated_with a cached)
                      (updated_with a cached)],
               updated_with a cached)
          end
      | biorbd.Index biorbd.marker_index => (lookup marker_list a, cached)
      | biorbd.Index biorbd.segment_index => (lookup ["Seg1"%string] a, cached)
      | biorbd.torqueMax => (inr (Vector [10; 10]%Z, Vector [-10; -10]%Z), cached)
      | biorbd.rigidContactAxisIdx => (inr (nth (first_nat a) contact_axes []), cached)
      | biorbd.setGravity => (inr tt, cached)
      end
  end.

Definition fext3 : MX := colvec [11; 12; 13]%Z.
Definition fext2 : MX := colvec [11; 12]%Z.
Definition fext5 : MX := colvec [11; 12; 13; 14; 15]%Z.

End Demo.

(** ** Running programs: general facts *)
Section RunFacts.
Context {E : Engine}.
Variable h : handler.

Lemma run_bind {A B : Type} (p : prog A) (f : A -> prog B) (s : engine_state) :
  run h (bind p f) s = and_then h (run h p s) f.
Proof.
  revert s. induction p as [a | c k IH | e]; intros s; simpl.
  - unfold and_then; simpl. now destruct (run h (f a) s).
  - destruct (h c s) as [[e | r] s']; [reflexivity |].
    rewrite IH. unfold and_then, logged; simpl.
    now destruct (returned (run h (k r) s')).
  - reflexivity.
Qed.

Lemma run_call_reads (f : biorbd.method) (a : list value) (s : engine_state)
      (r : ret_type f) :
  reads h (Call f a) s r ->
  run h (call f a) s = Outcome (inr r) s [Ev (Call f a) (inr r)].
Proof. unfold reads, call; intros H; simpl. now rewrite H. Qed.

(** A run either never sees the engine raise, or stops at the first call
    that raises and returns that very exception. *)
Lemma run_shape {A : Type} (p : prog A) (s : engine_state) :
  (clean (log (run h p s))
   /\ forall e, returned (run h p s) <> inl (EngineFailure e))
  \/ (exists l0 c e,
        log (run h p s) = l0 ++ [Ev c (inl e)]
        /\ clean l0
        /\ returned (run h p s) = inl (EngineFailure e)).
Proof.
  revert s. induction p as [a | c k IH | e]; intros s; simpl.
  - left; split; [constructor | discriminate].
  - destruct (h c s) as [[e | r] s'].
    + right. exists [], c, e. repeat split; constructor.
    + destruct (IH r s') as [[Hc Hr] | (l0 & c' & e & Hl & Hc & Hr)].
      * left; split; simpl; [constructor; [reflexivity | exact Hc] | exact Hr].
      * right. exists (Ev c (inr r) :: l0), c', e; simpl.
        rewrite Hl. repeat split; [constructor; [reflexivity | exact Hc] | exact Hr].
  - left; split; [constructor | discriminate].
Qed.

Lemma clean_not_raised (l : list event) (e : engine_error) :
  clean l -> ~ engine_raised l e.
Proof.
  intros Hc (ev & Hin & Hf). unfold clean in Hc. rewrite Forall_forall in Hc.
  specialize (Hc ev Hin). congruence.
Qed.

Lemma raised_propagates {A : Type} (p : prog A) (s : engine_state) (e : engine_error) :
  engine_raised (log (run h p s)) e ->
  returned (run h p s) = inl (EngineFailure e)
  /\ exists l0 c, log (run h p s) = l0 ++ [Ev c (inl e)] /\ clean l0.
Proof.
  intros Hr. destruct (run_shape p s) as [[Hc _] | (l0 & c & e' & Hl & Hc & Hret)].
  - now apply clean_not_raised in Hr.
  - assert (e' = e) as ->.
    { destruct Hr as (ev & Hin & Hf). rewrite Hl in Hin.
      apply in_app_or in Hin. destruct Hin as [Hin | [<- | []]].
      - unfold clean in Hc. rewrite Forall_forall in Hc.
        specialize (Hc ev Hin). congruence.
      - unfold ev_failed in Hf; simpl in Hf. congruence. }
    split; [exact Hret | now exists l0, c].
Qed.

Lemma engine_failure_raised {A : Type} (p : prog A) (s : engine_state) (e : engine_error) :
  returned (run h p s) = inl (EngineFailure e) -> engine_raised (log (run h p s)) e.
Proof.
  intros Hret. destruct (run_shape p s) as [[_ Hne] | (l0 & c & e' & Hl & _ & Hret')].
  - now elim (Hne e).
  - rewrite Hret in Hret'. injection Hret' as <-.
    exists (Ev c (inl e)). rewrite Hl. split; [| reflexivity].
    apply in_or_app; right; now left.
Qed.

Lemma returned_bind_fails {A B : Type} (p : prog A) (f : A -> prog B) s (e : failure) :
  returned (run h p s) = inl e -> returned (run h (bind p f) s) = inl e.
Proof. intros H. rewrite run_bind. unfold and_then. now rewrite H. Qed.

Lemma returned_bind_yields {A B : Type} (p : prog A) (f : A -> prog B) s a s1 :
  yields (run h p s) a s1 ->
  returned (run h (bind p f) s) = returned (run h (f a) s1).
Proof. intros [Hr Hf]. rewrite run_bind. unfold and_then. now rewrite Hr, Hf. Qed.

Lemma raise_free_failure {A : Type} (p : prog A) :
  raise_free p ->
  forall s f, returned (run h p s) = inl f ->
              exists e, f = EngineFailure e /\ engine_raised (log (run h p s)) e.
Proof.
  induction 1 as [a | c k Hk IH]; intros s f; simpl.
  - discriminate.
  - destruct (h c s) as [[e | r] s']; simpl.
    + intros [= <-]. exists e; split; [reflexivity |].
      exists (Ev c (inl e)); split; [now left | reflexivity].
    + intros Hf. destruct (IH r s' f Hf) as (e & -> & ev & Hin & Hev).
      exists e; split; [reflexivity |]. exists ev; split; [now right | exact Hev].
Qed.

End RunFacts.

Section ForwardingFacts.
Context {E : Engine}.

Ltac forwarder :=
  repeat first
    [ apply raise_free_Ret
    | apply raise_free_Do; intros ?
    | progress simpl
    | match goal with
      | |- context [let (_, _) := ?r in _] => destruct r
      | |- raise_free (match ?x with _ => _ end) => destruct x
      | |- raise_free (if ?b then _ else _) => destruct b
      | |- raise_free (bind (if ?b then _ else _) _) => destruct b
      end ].

Lemma forwarding_is_raise_free (o : op) :
  uses_matrix_indexing o = false -> raise_free (dispatch o).
Proof.
  destruct o; simpl; intros Hm; try discriminate;
    unfold an_int, an_MX, an_object, a_str_tuple, __init__, deep_copy, gravity,
      set_gravity, nb_tau, nb_segments, segment_index, nb_quaternions, nb_q, nb_qdot,
      nb_qddot, nb_root, segments, global_homogeneous_matrices,
      child_homogeneous_matrices, mass, center_of_mass, center_of_mass_velocity,
      center_of_mass_acceleration, angular_momentum, reshape_qdot,
      segment_angular_velocity, name_dof, contact_names, nb_soft_contacts,
      soft_contact_names, soft_contact, muscle_names, nb_muscles, torque,
      forward_dynamics_free_floating_base, forward_dynamics,
      constrained_forward_dynamics, inverse_dynamics,
      contact_forces_from_constrained_forward_dynamics, qdot_from_impact, state_set,
      muscle_activation_dot, muscle_joint_torque, markers, nb_markers, marker_index,
      marker, nb_rigid_contacts, nb_contacts, path, marker_velocities, tau_max,
      rigid_contact_acceleration, object_homogeneous_matrix, nb_dof, marker_names,
      call;
    forwarder.
Qed.

End ForwardingFacts.

(** ** The variadic marker queries and the boundary types *)
Section Boundary.
Context {E : Engine}.


(** C9.  [marker] called with exactly one argument makes no engine call at
    all and returns the bound method [self.model.marker] whatever the
    argument is; the engine's [marker] is invoked exactly when two or more
    arguments are given, and then once, with all of them. *)
Theorem marker_with_one_argument_returns_the_bound_method
        (h : handler) (s : engine_state) :
  (forall a,
     run h (marker [a]) s
     = Outcome (inr (VBound (biorbd.Obj biorbd.marker))) s [])
  /\ (forall args,
        invokes (biorbd.Obj biorbd.marker) (log (run h (marker args) s))
        <-> 2 <= length args)
  /\ (forall args,
        2 <= length args ->
        calls (log (run h (marker args) s)) = [Call (biorbd.Obj biorbd.marker) args]).
Proof.
  split; [reflexivity | split].
  - intros args. unfold marker, invokes.
    destruct (Nat.ltb_spec 1 (length args)) as [Hlt | Hge]; simpl.
    + split; [intros _; lia | intros _].
      exists (Call (biorbd.Obj biorbd.marker) args).
      destruct (h _ s) as [[e | r] s']; simpl; split; auto.
    + split; [intros (c & [] & _) | lia].
  - intros args Hlen. unfold marker.
    destruct (Nat.ltb_spec 1 (length args)) as [Hlt | Hge]; [| lia]. simpl.
    now destruct (h _ s) as [[e | r] s'].
Qed.

(** What a forwarding operation does: its one engine call, and the answer
    handed back, through [to_mx] where the body converts. *)
Lemma forwarded_call_run (h : handler) (o : op) (f : biorbd.object_method)
      (a : list value) (s : engine_state) :
  forwarded_call o = Some (f, a) ->
  run h (dispatch o) s
  = match h (Call (biorbd.Obj f) a) s with
    | (inl e, s') =>
        Outcome (inl (EngineFailure e)) s' [Ev (Call (biorbd.Obj f) a) (inl e)]
    | (inr r, s') =>
        Outcome (inr (if converts o then VMX (to_mx r) else VNative r)) s'
          [Ev (Call (biorbd.Obj f) a) (inr r)]
    end.
Proof.
  intros Hf.
  destruct o; simpl in Hf; try discriminate; injection Hf as <- <-; simpl;
    now destruct (h _ s) as [[e | r] s'].
Qed.


(** C8.  Each count accessor makes exactly one engine call, the getter of
    the same quantity without arguments, and adds nothing of its own: it
    fails or returns as the getter does and leaves the engine in the state
    the getter leaves it in.  So where the getter is a read, the accessor
    returns the count and leaves the state as it was, and any number of
    invocations in a row return that same count. *)
Theorem count_accessors_are_pure_reads
        (h : handler) (o : op) (g : biorbd.count_method) :
  count_accessor o = Some g ->
  (forall s,
     calls (log (run h (dispatch o) s)) = [Call (biorbd.Count g) []]
     /\ final (run h (dispatch o) s) = snd (h (Call (biorbd.Count g) []) s)
     /\ returned (run h (dispatch o) s)
        = match fst (h (Call (biorbd.Count g) []) s) with
          | inl e => inl (EngineFailure e)
          | inr n => inr (VInt (Z.of_nat n))
          end)
  /\ (forall s n,
        reads h (Call (biorbd.Count g) []) s n ->
        returned (run h (dispatch o) s) = inr (VInt (Z.of_nat n))
        /\ final (run h (dispatch o) s) = s
        /\ forall k,
             invocations h (dispatch o) k s = (repeat (inr (VInt (Z.of_nat n))) k, s)).
Proof.
  intros Hacc.
  assert (Hrun : forall s,
             run h (dispatch o) s
             = run h (an_int (call (biorbd.Count g) [])) s).
  { destruct o; simpl in Hacc; try discriminate; injection Hacc as <-; reflexivity. }
  split.
  - intros s. rewrite Hrun. simpl.
    now destruct (h (Call (biorbd.Count g) []) s) as [[e | n] s'].
  - intros s n Hread.
    assert (Hone : run h (dispatch o) s
                   = Outcome (inr (VInt (Z.of_nat n))) s
                       [Ev (Call (biorbd.Count g) []) (inr n)]).
    { rewrite Hrun. unfold reads in Hread. simpl. now rewrite Hread. }
    rewrite Hone. simpl. repeat split.
    induction k as [| k IH]; simpl; [reflexivity |].
    rewrite Hone. simpl. now rewrite IH.
Qed.

End Boundary.

(** ** Cutting a flat vector into blocks *)
Section Slices.
Context {T : Type}.

Lemma slices_length (sizes : list nat) (v : list T) :
  length (slices sizes v) = length sizes.
Proof. revert v; induction sizes as [| n rest IH]; intros v; simpl; auto. Qed.

Lemma slices_concat (sizes : list nat) (v : list T) :
  concat (slices sizes v) = firstn (list_sum sizes) v.
Proof.
  revert v; induction sizes as [| n rest IH]; intros v; simpl; [reflexivity |].
  rewrite IH. rewrite <- (firstn_skipn n v) at 3.
  rewrite firstn_app. rewrite firstn_firstn.
  replace (Nat.min (n + list_sum rest) n) with n by lia.
  f_equal. destruct (Nat.le_gt_cases n (length v)) as [Hle | Hgt].
  - rewrite firstn_length_le by exact Hle. f_equal; lia.
  - rewrite (skipn_all2 v) by lia. now rewrite !firstn_nil.
Qed.

Lemma slices_nth (sizes : list nat) (v : list T) (i : nat) :
  i < length sizes ->
  nth_error (slices sizes v) i
  = Some (firstn (nth i sizes 0) (skipn (list_sum (firstn i sizes)) v)).
Proof.
  revert v i; induction sizes as [| n rest IH]; intros v i Hi; simpl in Hi; [lia |].
  destruct i as [| i]; simpl; [reflexivity |].
  rewrite IH by lia. now rewrite skipn_skipn, (Nat.add_comm _ n).
Qed.

Lemma slices_firstn (sizes : list nat) (v : list T) (k : nat) :
  list_sum sizes <= k -> slices sizes (firstn k v) = slices sizes v.
Proof.
  revert v k; induction sizes as [| n rest IH]; intros v k Hk; simpl in *;
    [reflexivity |].
  rewrite firstn_firstn. replace (Nat.min n k) with n by lia. f_equal.
  rewrite skipn_firstn_comm. apply IH. lia.
Qed.

Lemma index_blocks_concat (start : nat) (sizes : list nat) :
  concat (index_blocks start sizes) = seq start (list_sum sizes).
Proof.
  revert start; induction sizes as [| n rest IH]; intros start; simpl;
    [reflexivity |].
  rewrite IH, seq_app. f_equal.
  clear. revert start. induction n as [| n IHn]; intros start; simpl; [reflexivity |].
  f_equal. rewrite <- seq_shift, map_map.
  rewrite <- (IHn (S start)). apply map_ext. intros i; lia.
Qed.

Lemma firstn_app_exact (a b : list T) (n : nat) :
  length a = n -> firstn n (a ++ b) = a.
Proof.
  intros <-. rewrite firstn_app, Nat.sub_diag, firstn_O, app_nil_r. apply firstn_all.
Qed.

Lemma skipn_app_exact (a b : list T) (n : nat) :
  length a = n -> skipn n (a ++ b) = b.
Proof.
  intros <-. rewrite skipn_app, Nat.sub_diag, skipn_all. reflexivity.
Qed.

Lemma skipn_cons_nth (v : list T) (c : nat) (x : T) :
  nth_error v c = Some x -> skipn c v = x :: skipn (S c) v.
Proof.
  revert v; induction c as [| c IH]; intros [| y v]; simpl; try discriminate.
  - now intros [= ->].
  - intros H. now rewrite (IH v H).
Qed.

(** Reading [n] positions from [count] on is the slice [v[count : count +
    n]], provided it lies inside [v]. *)
Lemma get_all_range (v : list T) (count n : nat) :
  count + n <= length v ->
  get_all v (map (fun i => i + count) (seq 0 n)) = Some (firstn n (skipn count v)).
Proof.
  revert count; induction n as [| n IH]; intros count Hle; simpl; [reflexivity |].
  destruct (nth_error v count) as [x |] eqn:Hx.
  2:{ apply nth_error_None in Hx. lia. }
  rewrite <- seq_shift, map_map.
  rewrite (map_ext _ (fun i => i + S count)) by (intros; lia).
  rewrite IH by lia. now rewrite (skipn_cons_nth _ _ Hx).
Qed.

(** A position outside [v] makes the read fail. *)
Lemma get_all_out_of_range (v : list T) (count n : nat) :
  count <= length v -> length v < count + n ->
  get_all v (map (fun i => i + count) (seq 0 n)) = None.
Proof.
  revert count; induction n as [| n IH]; intros count Hc Hlt; simpl; [lia |].
  destruct (nth_error v count) as [x |] eqn:Hx; [| reflexivity].
  assert (count < length v) by (apply nth_error_Some; congruence).
  rewrite <- seq_shift, map_map.
  rewrite (map_ext _ (fun i => i + S count)) by (intros; lia).
  rewrite IH by lia. reflexivity.
Qed.

End Slices.

(** ** Reshaping the external forces *)
Section Reshape.
Context {E : Engine}.
Variable h : handler.

Lemma yields_bind {A B : Type} (p : prog A) (f : A -> prog B) s a s1 b s2 :
  yields (run h p s) a s1 -> yields (run h (f a) s1) b s2 ->
  yields (run h (bind p f) s) b s2.
Proof.
  intros [Hr Hf] [Hr' Hf']. rewrite run_bind. unfold and_then.
  rewrite Hr, Hf. split; assumption.
Qed.

Lemma yields_reads (f : biorbd.method) (a : list value) s (r : ret_type f) :
  reads h (Call f a) s r -> yields (run h (call f a) s) r s.
Proof. intros H. rewrite (run_call_reads H). now split. Qed.

Lemma reshape_step_yields (fext : MX) (s : engine_state) (ii count : nat)
      (acc : list MX) (a : list nat) :
  reads h (Call biorbd.rigidContactAxisIdx [VInt (Z.of_nat ii)]) s a ->
  count + length a <= length (nonzeros fext) ->
  yields (run h (reshape_step fext (count, acc) ii) s)
         (count + length a,
          acc ++ [colvec (firstn (length a) (skipn count (nonzeros fext)))])
         s.
Proof.
  intros Ha Hle. unfold reshape_step.
  eapply yields_bind; [apply (yields_reads Ha) |].
  cbv beta. unfold getitem. rewrite get_all_range by exact Hle.
  simpl. split; reflexivity.
Qed.

Lemma reshape_loop (fext : MX) (s : engine_state) (todo done : list (list nat))
      (count : nat) (acc : list MX) :
  rigid_contacts h s (done ++ todo) ->
  count + total_axes todo <= length (nonzeros fext) ->
  yields (run h (for_each (reshape_step fext) (seq (length done) (length todo))
                   (count, acc)) s)
         (count + total_axes todo,
          acc ++ map colvec (slices (map (@length nat) todo) (skipn count (nonzeros fext))))
         s.
Proof.
  revert done count acc.
  induction todo as [| a todo IH]; intros done count acc Hview Hle.
  - simpl. unfold total_axes; simpl.
    rewrite Nat.add_0_r, app_nil_r. now split.
  - unfold total_axes in *; simpl in Hle.
    change (seq (length done) (length (a :: todo)))
      with (length done :: seq (S (length done)) (length todo)).
    change (for_each (reshape_step fext) (length done :: ?l) ?st)
      with (bind (reshape_step fext st (length done)) (for_each (reshape_step fext) l)).
    assert (Ha : reads h (Call biorbd.rigidContactAxisIdx [VInt (Z.of_nat (length done))])
                   s a).
    { destruct Hview as [_ Hax]. specialize (Hax (length done)).
      rewrite nth_middle in Hax. apply Hax. rewrite length_app; simpl; lia. }
    eapply yields_bind; [eapply reshape_step_yields; [exact Ha | lia] |].
    replace (S (length done)) with (length (done ++ [a]))
      by (rewrite length_app; simpl; lia).
    specialize (IH (done ++ [a]) (count + length a)
                  (acc ++ [colvec (firstn (length a) (skipn count (nonzeros fext)))])).
    rewrite <- !app_assoc in IH. simpl in IH.
    simpl. rewrite skipn_skipn, (Nat.add_comm (length a) count).
    replace (count + (length a + list_sum (map (@length nat) todo)))
      with (count + length a + list_sum (map (@length nat) todo)) by lia.
    apply IH; [exact Hview | lia].
Qed.

(** What [reshape_fext_to_fcontact] returns whenever [fext] is long enough. *)
Lemma reshape_returns (fext : MX) (s : engine_state) (axes : list (list nat)) :
  rigid_contacts h s axes ->
  total_axes axes <= length (nonzeros fext) ->
  yields (run h (reshape_fext_to_fcontact fext) s)
         (map colvec (slices (map (@length nat) axes) (nonzeros fext))) s.
Proof.
  intros Hview Hle. unfold reshape_fext_to_fcontact.
  eapply yields_bind; [exact (yields_reads (proj1 Hview)) |].
  eapply yields_bind.
  - apply (@reshape_loop fext s axes [] 0 []); [exact Hview | simpl; lia].
  - simpl. now split.
Qed.

Lemma offset_le_total (axes : list (list nat)) (i : nat) :
  offset axes i <= total_axes axes.
Proof.
  unfold offset, total_axes. revert i; induction axes as [| a axes IH]; intros i.
  - now rewrite firstn_nil.
  - destruct i as [| i]; simpl; [lia |]. specialize (IH i). lia.
Qed.

Lemma offset_succ (axes : list (list nat)) (i : nat) :
  i < length axes -> offset axes (S i) = offset axes i + length (nth i axes []).
Proof.
  unfold offset. revert i; induction axes as [| a axes IH]; intros i Hi; simpl in Hi;
    [lia |].
  destruct i as [| i]; simpl; [lia |].
  specialize (IH i). simpl in IH. rewrite IH by lia. lia.
Qed.

Lemma index_blocks_read (fext : MX) (sizes : list nat) (start : nat) :
  start + list_sum sizes <= length (nonzeros fext) ->
  Forall2 (fun idx block => getitem fext idx = inr block)
          (index_blocks start sizes)
          (map colvec (slices sizes (skipn start (nonzeros fext)))).
Proof.
  revert start; induction sizes as [| n rest IH]; intros start Hle; simpl in *;
    constructor.
  - unfold getitem. now rewrite get_all_range by lia.
  - rewrite skipn_skipn, (Nat.add_comm n start). apply IH. lia.
Qed.

Lemma nonzeros_colvec (v : list scalar) : nonzeros (colvec v) = v.
Proof. unfold nonzeros, colvec; simpl. apply app_nil_r. Qed.

Lemma reshape_loop_out_of_bounds (fext : MX) (s : engine_state)
      (todo done : list (list nat)) (count : nat) (acc : list MX) :
  rigid_contacts h s (done ++ todo) ->
  count <= length (nonzeros fext) ->
  length (nonzeros fext) < count + total_axes todo ->
  returned (run h (for_each (reshape_step fext) (seq (length done) (length todo))
                     (count, acc)) s)
  = inl (LibraryFailure OutOfBounds).
Proof.
  revert done count acc.
  induction todo as [| a todo IH]; intros done count acc Hview Hc Hlt;
    unfold total_axes in *; simpl in Hlt; [lia |].
  change (seq (length done) (length (a :: todo)))
    with (length done :: seq (S (length done)) (length todo)).
  change (for_each (reshape_step fext) (length done :: ?l) ?st)
    with (bind (reshape_step fext st (length done)) (for_each (reshape_step fext) l)).
  assert (Ha : reads h (Call biorbd.rigidContactAxisIdx [VInt (Z.of_nat (length done))])
                 s a).
  { destruct Hview as [_ Hax]. specialize (Hax (length done)).
    rewrite nth_middle in Hax. apply Hax. rewrite length_app; simpl; lia. }
  destruct (Nat.le_gt_cases (count + length a) (length (nonzeros fext))) as [Hle | Hgt].
  - erewrite returned_bind_yields by (eapply reshape_step_yields; [exact Ha | exact Hle]).
    replace (S (length done)) with (length (done ++ [a]))
      by (rewrite length_app; simpl; lia).
    apply IH; [now rewrite <- app_assoc | lia | lia].
  - apply returned_bind_fails. unfold reshape_step.
    erewrite returned_bind_yields by exact (yields_reads Ha).
    unfold getitem. now rewrite get_all_out_of_range by lia.
Qed.

(** With fewer entries than the contacts have axes, the subscript fails. *)
Lemma reshape_short_fext (fext : MX) (s : engine_state) (axes : list (list nat)) :
  rigid_contacts h s axes ->
  length (nonzeros fext) < total_axes axes ->
  returned (run h (reshape_fext_to_fcontact fext) s) = inl (LibraryFailure OutOfBounds).
Proof.
  intros Hview Hlt. unfold reshape_fext_to_fcontact.
  erewrite returned_bind_yields by exact (yields_reads (proj1 Hview)).
  apply returned_bind_fails.
  apply (@reshape_loop_out_of_bounds fext s axes [] 0 []); [exact Hview | lia | exact Hlt].
Qed.

(** C1.  For a flat vector [fext] whose length is the sum of the contacts'
    axis counts, [reshape_fext_to_fcontact] returns one block per rigid
    contact, in contact order; block [i] is the slice of [fext] that starts
    where block [i - 1] ended and has as many entries as contact [i] has
    axes, the first block starts at 0 and the last one ends at the end of
    [fext]; the blocks put end to end are [fext]. *)
Theorem reshape_fext_to_fcontact_partitions_fext
        (s : engine_state) (axes : list (list nat)) (v : list scalar) :
  rigid_contacts h s axes ->
  length v = total_axes axes ->
  exists blocks,
    returned (run h (reshape_fext_to_fcontact (colvec v)) s) = inr blocks
    /\ length blocks = length axes
    /\ (forall i, i < length axes ->
          exists block,
            nth_error blocks i = Some block
            /\ block = colvec (firstn (length (nth i axes [])) (skipn (offset axes i) v))
            /\ size1 block = length (nth i axes []) /\ size2 block = 1)
    /\ offset axes 0 = 0
    /\ (forall i, i < length axes ->
          offset axes (S i) = offset axes i + length (nth i axes []))
    /\ offset axes (length axes) = length v
    /\ concat (map nonzeros blocks) = v.
Proof.
  intros Hview Hlen.
  pose proof (nonzeros_colvec v) as Hnz.
  destruct (@reshape_returns (colvec v) s axes Hview) as [Hret _].
  { rewrite Hnz. lia. }
  rewrite Hnz in Hret.
  exists (map colvec (slices (map (@length nat) axes) v)).
  split; [exact Hret |]. split; [| split; [| split; [| split; [| split]]]].
  - now rewrite length_map, slices_length, length_map.
  - intros i Hi. eexists. split; [| split; [reflexivity | split; [| reflexivity]]].
    + rewrite nth_error_map, slices_nth by (now rewrite length_map).
      simpl. unfold offset. rewrite firstn_map.
      change 0 with (length (@nil nat)) at 1.
      now rewrite (map_nth (@length nat) axes [] i).
    + unfold size1, colvec; simpl. rewrite length_firstn, length_skipn.
      pose proof (offset_succ axes Hi). pose proof (offset_le_total axes (S i)). lia.
  - reflexivity.
  - apply offset_succ.
  - unfold offset. now rewrite firstn_all.
  - rewrite map_map. unfold nonzeros, colvec; simpl.
    rewrite (map_ext _ (fun x => x)) by (intros; apply app_nil_r).
    rewrite map_id, slices_concat. unfold total_axes in Hlen.
    rewrite <- Hlen. apply firstn_all.
Qed.

(** C10.  [reshape_fext_to_fcontact] does not check the length of [fext]:
    a flat vector with at least as many entries as the contacts have axes
    is accepted, the positions it reads are exactly 0 up to that sum less
    one, block by block, the entries after them are ignored, and two
    vectors that agree on these positions give the same result. *)
Theorem reshape_fext_to_fcontact_ignores_what_follows
        (s : engine_state) (axes : list (list nat)) (v : list scalar) :
  rigid_contacts h s axes ->
  total_axes axes <= length v ->
  (exists blocks,
     returned (run h (reshape_fext_to_fcontact (colvec v)) s) = inr blocks
     /\ Forall2 (fun idx block => getitem (colvec v) idx = inr block)
                (index_blocks 0 (map (@length nat) axes)) blocks
     /\ concat (index_blocks 0 (map (@length nat) axes)) = seq 0 (total_axes axes))
  /\ returned (run h (reshape_fext_to_fcontact (colvec v)) s)
     = returned (run h (reshape_fext_to_fcontact (colvec (firstn (total_axes axes) v))) s)
  /\ (forall v' : list scalar,
        total_axes axes <= length v' ->
        firstn (total_axes axes) v' = firstn (total_axes axes) v ->
        returned (run h (reshape_fext_to_fcontact (colvec v')) s)
        = returned (run h (reshape_fext_to_fcontact (colvec v)) s)).
Proof.
  intros Hview Hle.
  assert (Hdep : forall v' : list scalar,
             total_axes axes <= length v' ->
             firstn (total_axes axes) v' = firstn (total_axes axes) v ->
             returned (run h (reshape_fext_to_fcontact (colvec v')) s)
             = returned (run h (reshape_fext_to_fcontact (colvec v)) s)).
  { intros v' Hle' Hsame.
    destruct (@reshape_returns (colvec v) s axes Hview) as [Hret _];
      [now rewrite nonzeros_colvec |].
    destruct (@reshape_returns (colvec v') s axes Hview) as [Hret' _];
      [now rewrite nonzeros_colvec |].
    rewrite Hret, Hret', !nonzeros_colvec. do 2 f_equal.
    rewrite <- (slices_firstn _ v' (Nat.le_refl _)).
    rewrite <- (slices_firstn _ v (Nat.le_refl _)).
    unfold total_axes in Hsame. now rewrite Hsame. }
  split; [| split; [| exact Hdep]].
  - destruct (@reshape_returns (colvec v) s axes Hview) as [Hret _];
      [now rewrite nonzeros_colvec |].
    exists (map colvec (slices (map (@length nat) axes) (nonzeros (colvec v)))).
    split; [exact Hret | split].
    + apply (index_blocks_read (colvec v) (map (@length nat) axes) 0).
      now rewrite nonzeros_colvec.
    + apply index_blocks_concat.
  - symmetry. apply Hdep.
    + rewrite length_firstn. lia.
    + rewrite firstn_firstn. f_equal. lia.
Qed.

End Reshape.

(** ** Assembling the soft-contact forces *)
Section SoftContacts.
Context {E : Engine}.
Variable h : handler.
Variables q qdot : value.

Lemma set_rows_colvec (col : list scalar) (a b : nat) (rhs res : MX) :
  set_rows (colvec col) a b rhs = inr res ->
  exists r, rhs = colvec r /\ length r = b - a /\ a <= b /\ b <= length col
            /\ res = colvec (firstn a col ++ r ++ skipn b col).
Proof.
  unfold set_rows, colvec. simpl.
  destruct (Nat.leb_spec a b) as [Hab |]; [| discriminate].
  destruct (Nat.leb_spec b (length col)) as [Hb |]; [| discriminate].
  simpl. destruct rhs as [| r [| r' rhs]]; simpl; try discriminate.
  destruct (Nat.eqb_spec (length r) (b - a)) as [Hr |]; [| discriminate].
  simpl. intros [= <-]. now exists r.
Qed.

Lemma set_rows_block (col r : list scalar) (a b : nat) :
  a <= b -> b <= length col -> length r = b - a ->
  set_rows (colvec col) a b (colvec r)
  = inr (colvec (firstn a col ++ r ++ skipn b col)).
Proof.
  intros Hab Hb Hr. unfold set_rows, colvec. simpl.
  destruct (Nat.leb_spec a b); [| lia].
  destruct (Nat.leb_spec b (length col)); [| lia].
  simpl. destruct (Nat.eqb_spec (length r) (b - a)); [reflexivity | contradiction].
Qed.

Lemma soft_contact_step_returns (acc res : MX) (i : nat) s s' l :
  run h (soft_contact_step q qdot acc i) s = Outcome (inr res) s' l ->
  exists contact sphere force,
    l = [Ev (Call (biorbd.Obj biorbd.softContact) [VInt (Z.of_nat i)]) (inr contact);
         Ev (Call (biorbd.Obj biorbd.SoftContactSphere) [VNative contact]) (inr sphere);
         Ev (Call (biorbd.Obj biorbd.computeForceAtOrigin)
               [VNative sphere; VSelfModel; q; qdot]) (inr force)]
    /\ set_rows acc (i * 6) ((i + 1) * 6) (to_mx force) = inr res.
Proof.
  unfold soft_contact_step, soft_contact, call. simpl.
  destruct (h _ s) as [[e | contact] s1]; [discriminate |]. simpl.
  destruct (h _ s1) as [[e | sphere] s2]; [discriminate |]. simpl.
  destruct (h _ s2) as [[e | force] s3]; [discriminate |]. simpl.
  destruct (set_rows acc (i * 6) ((i + 1) * 6) (to_mx force)) as [e | m] eqn:Hset;
    simpl; [discriminate |].
  unfold logged; simpl. intros [= <- <- <-]. now exists contact, sphere, force.
Qed.

Lemma for_each_cons {A X : Type} (body : A -> X -> prog A) (x : X) (l : list X) (acc : A) :
  for_each body (x :: l) acc = bind (body acc x) (for_each body l).
Proof. reflexivity. Qed.

Lemma run_bind_returns {A B : Type} (p : prog A) (f : A -> prog B) s b s' l :
  run h (bind p f) s = Outcome (inr b) s' l ->
  exists a s1 l1 l2,
    run h p s = Outcome (inr a) s1 l1
    /\ run h (f a) s1 = Outcome (inr b) s' l2
    /\ l = l1 ++ l2.
Proof.
  rewrite run_bind. unfold and_then.
  destruct (run h p s) as [[e | a] s1 l1] eqn:Hp; simpl; [discriminate |].
  destruct (run h (f a) s1) as [rb sb lb] eqn:Hf; simpl.
  intros [= -> -> <-]. now exists a, s1, l1, lb.
Qed.

(** The loop, whenever it returns: the blocks of the contacts it went
    through hold their forces, the rest of the vector is as it was. *)
Lemma soft_contact_loop (n m : nat) :
  forall (k : nat) (col : list scalar) s (res : MX) s' l,
    k + m = n -> length col = 6 * n ->
    run h (for_each (soft_contact_step q qdot) (seq k m) (colvec col)) s
    = Outcome (inr res) s' l ->
    exists col' forces,
      res = colvec col' /\ length col' = 6 * n
      /\ wrench_log q qdot k l forces /\ length forces = m
      /\ firstn (6 * k) col' = firstn (6 * k) col
      /\ skipn (6 * n) col' = skipn (6 * n) col
      /\ forall j, j < m ->
           exists w, nth_error forces j = Some w
                     /\ to_mx w = colvec (firstn 6 (skipn (6 * (k + j)) col')).
Proof.
  induction m as [| m IH]; intros k col s res s' l Hk Hlen Hrun.
  - simpl in Hrun. injection Hrun as <- <- <-.
    exists col, [].
    split; [reflexivity | split; [exact Hlen | split; [constructor |]]].
    split; [reflexivity | split; [reflexivity | split; [reflexivity |]]].
    intros j Hj; lia.
  - simpl seq in Hrun. rewrite for_each_cons in Hrun.
    apply run_bind_returns in Hrun.
    destruct Hrun as (acc & s1 & l1 & l2 & Hstep & Hrest & ->).
    apply soft_contact_step_returns in Hstep.
    destruct Hstep as (contact & sphere & force & -> & Hset).
    apply set_rows_colvec in Hset.
    destruct Hset as (r & Hw & Hr & _ & Hb & ->).
    replace (k * 6) with (6 * k) in * by lia.
    replace ((k + 1) * 6) with (6 * k + 6) in * by lia.
    set (front := firstn (6 * k) col) in *.
    assert (Hfl : length (front ++ r) = 6 * k + 6).
    { unfold front. rewrite length_app, length_firstn. lia. }
    set (col1 := front ++ r ++ skipn (6 * k + 6) col) in *.
    assert (Hl1 : length col1 = 6 * n).
    { unfold col1. rewrite app_assoc, length_app, Hfl, length_skipn. lia. }
    destruct (IH (S k) col1 s1 res s' l2 ltac:(lia) Hl1 Hrest)
      as (col' & forces & -> & Hl' & Hlog & Hlf & Hpre & Hpost & Hblocks).
    assert (Hfront : firstn (6 * k + 6) col' = front ++ r).
    { replace (6 * k + 6) with (6 * S k) by lia. rewrite Hpre. unfold col1.
      rewrite app_assoc. apply firstn_app_exact. lia. }
    exists col', (force :: forces).
    split; [reflexivity | split; [exact Hl' | split; [simpl; now constructor |]]].
    split; [simpl; lia | split; [| split]].
    + assert (Hcut : firstn (6 * k) col' = firstn (6 * k) (firstn (6 * k + 6) col')).
      { rewrite firstn_firstn. f_equal. lia. }
      rewrite Hcut, Hfront. apply firstn_app_exact.
      unfold front. rewrite length_firstn. lia.
    + rewrite Hpost. unfold col1. rewrite app_assoc.
      replace (6 * n) with ((6 * n - (6 * k + 6)) + (6 * k + 6)) by lia.
      rewrite <- (skipn_skipn (6 * n - (6 * k + 6)) (6 * k + 6) col).
      rewrite <- (skipn_skipn (6 * n - (6 * k + 6)) (6 * k + 6) (_ ++ _)).
      f_equal. now apply skipn_app_exact.
    + intros [| j] Hj.
      * exists force; split; [reflexivity |]. rewrite Hw. f_equal.
        rewrite Nat.add_0_r, firstn_skipn_comm, Hfront. symmetry.
        apply skipn_app_exact. unfold front. rewrite length_firstn. lia.
      * destruct (Hblocks j ltac:(lia)) as (w & Hnth & Hmx).
        exists w; split; [exact Hnth |].
        now replace (k + S j) with (S k + j) by lia.
Qed.

Lemma soft_contact_step_succeeds (col : list scalar) (i : nat) s :
  soft_contact_calls_succeed h -> wrenches_have_six_rows h ->
  6 * i + 6 <= length col ->
  exists col1 s1 l1,
    run h (soft_contact_step q qdot (colvec col) i) s = Outcome (inr (colvec col1)) s1 l1
    /\ length col1 = length col.
Proof.
  intros Hok Hsix Hb. unfold soft_contact_step, soft_contact, call. simpl.
  destruct (Hok biorbd.softContact [VInt (Z.of_nat i)] s) as [contact Hc];
    [simpl; auto |].
  destruct (h _ s) as [[e | contact'] s1]; simpl in Hc; [discriminate |].
  injection Hc as ->. simpl.
  destruct (Hok biorbd.SoftContactSphere [VNative contact] s1) as [sphere Hs];
    [simpl; auto |].
  destruct (h _ s1) as [[e | sphere'] s2]; simpl in Hs; [discriminate |].
  injection Hs as ->. simpl.
  destruct (Hok biorbd.computeForceAtOrigin [VNative sphere; VSelfModel; q; qdot] s2)
    as [force Hf]; [simpl; auto |].
  destruct (Hsix _ _ _ Hf) as (r & Hw & Hr).
  destruct (h _ s2) as [[e | force'] s3]; simpl in Hf; [discriminate |].
  injection Hf as ->. simpl.
  rewrite Hw, set_rows_block by lia. simpl.
  eexists _, _, _. split; [reflexivity |].
  rewrite !length_app, length_firstn, length_skipn. lia.
Qed.

Lemma soft_contact_loop_returns (n m : nat) :
  soft_contact_calls_succeed h -> wrenches_have_six_rows h ->
  forall (k : nat) (col : list scalar) s,
    k + m = n -> length col = 6 * n ->
    exists res,
      returned (run h (for_each (soft_contact_step q qdot) (seq k m) (colvec col)) s)
      = inr res.
Proof.
  intros Hok Hsix. induction m as [| m IH]; intros k col s Hk Hlen.
  - now exists (colvec col).
  - simpl seq. rewrite for_each_cons, run_bind.
    destruct (@soft_contact_step_succeeds col k s Hok Hsix ltac:(lia))
      as (col1 & s1 & l1 & Hstep & Hl1).
    rewrite Hstep. unfold and_then; simpl.
    apply IH; lia.
Qed.

Lemma soft_contact_forces_run (s : engine_state) (n : nat) :
  reads h (Call (biorbd.Count biorbd.nbSoftContacts) []) s n ->
  run h (soft_contact_forces q qdot) s
  = logged (Ev (Call (biorbd.Count biorbd.nbSoftContacts) []) (inr n))
      (logged (Ev (Call (biorbd.Count biorbd.nbSoftContacts) []) (inr n))
         (run h (for_each (soft_contact_step q qdot) (seq 0 n)
                   (colvec (repeat zero (n * 6)))) s)).
Proof.
  intros Hn.
  assert (Hcount : run h nb_soft_contacts s
                   = Outcome (inr n) s
                       [Ev (Call (biorbd.Count biorbd.nbSoftContacts) []) (inr n)])
    by exact (run_call_reads Hn).
  unfold soft_contact_forces. rewrite run_bind, Hcount.
  unfold and_then. cbn [returned final log]. rewrite run_bind, Hcount.
  unfold and_then, logged. cbn [returned final log app]. reflexivity.
Qed.

(** One turn of the loop either fails in the engine or writes its block. *)
Lemma soft_contact_step_cases (col : list scalar) (i : nat) s :
  wrenches_have_six_rows h ->
  6 * i + 6 <= length col ->
  (exists e, returned (run h (soft_contact_step q qdot (colvec col) i) s)
             = inl (EngineFailure e))
  \/ (exists col1 s1 l1,
        run h (soft_contact_step q qdot (colvec col) i) s
        = Outcome (inr (colvec col1)) s1 l1
        /\ length col1 = length col).
Proof.
  intros Hsix Hb. unfold soft_contact_step, soft_contact, call. simpl.
  destruct (h _ s) as [[e | contact] s1]; simpl; [left; now exists e |].
  destruct (h _ s1) as [[e | sphere] s2]; simpl; [left; now exists e |].
  destruct (h (Call (biorbd.Obj biorbd.computeForceAtOrigin)
                [VNative sphere; VSelfModel; q; qdot]) s2)
    as [[e | force] s3] eqn:Hf; simpl; [left; now exists e |].
  destruct (Hsix [VNative sphere; VSelfModel; q; qdot] s2 force) as (r & Hw & Hr).
  { now rewrite Hf. }
  right. rewrite Hw, set_rows_block by lia. simpl.
  eexists _, _, _. split; [reflexivity |].
  rewrite !length_app, length_firstn, length_skipn. lia.
Qed.

Lemma soft_contact_loop_failure (n m : nat) :
  wrenches_have_six_rows h ->
  forall (k : nat) (col : list scalar) s f,
    k + m = n -> length col = 6 * n ->
    returned (run h (for_each (soft_contact_step q qdot) (seq k m) (colvec col)) s)
    = inl f ->
    exists e, f = EngineFailure e.
Proof.
  intros Hsix. induction m as [| m IH]; intros k col s f Hk Hlen; [discriminate |].
  simpl seq. rewrite for_each_cons, run_bind.
  destruct (@soft_contact_step_cases col k s Hsix ltac:(lia))
    as [[e He] | (col1 & s1 & l1 & Hstep & Hl1)].
  - unfold and_then. rewrite He. simpl. intros [= <-]. now exists e.
  - rewrite Hstep. unfold and_then; simpl. apply IH; lia.
Qed.

(** With six-row forces, [soft_contact_forces] fails only in the engine. *)
Lemma soft_contact_forces_failure (s : engine_state) (n : nat) (f : failure) :
  reads h (Call (biorbd.Count biorbd.nbSoftContacts) []) s n ->
  wrenches_have_six_rows h ->
  returned (run h (soft_contact_forces q qdot) s) = inl f ->
  exists e, f = EngineFailure e.
Proof.
  intros Hn Hsix. rewrite (soft_contact_forces_run Hn). unfold logged; simpl.
  apply (@soft_contact_loop_failure n n Hsix 0); [reflexivity |].
  rewrite repeat_length; lia.
Qed.

(** C4.  With [n] the engine's number of soft contacts and its forces at
    the origin six-component wrenches: whenever [soft_contact_forces]
    returns, the result has one column of [6 * n] rows, the engine was
    asked, contact by contact in index order, for the force at the origin of
    each soft contact, and rows [6 * i] to [6 * i + 5] hold the six
    components of the force of contact [i]; with no soft contact the result
    is the (empty) zero vector.  It does return when the engine answers the
    calls of the loop. *)
Theorem soft_contact_forces_stacks_the_wrenches (s : engine_state) (n : nat) :
  reads h (Call (biorbd.Count biorbd.nbSoftContacts) []) s n ->
  wrenches_have_six_rows h ->
  (soft_contact_calls_succeed h ->
   exists m, returned (run h (soft_contact_forces q qdot) s) = inr m)
  /\ (forall m,
        returned (run h (soft_contact_forces q qdot) s) = inr m ->
        exists col forces l,
          m = colvec col
          /\ size1 m = 6 * n /\ size2 m = 1
          /\ log (run h (soft_contact_forces q qdot) s)
             = Ev (Call (biorbd.Count biorbd.nbSoftContacts) []) (inr n)
               :: Ev (Call (biorbd.Count biorbd.nbSoftContacts) []) (inr n) :: l
          /\ wrench_log q qdot 0 l forces
          /\ length forces = n
          /\ (forall i, i < n ->
                exists w, nth_error forces i = Some w
                          /\ to_mx w = colvec (firstn 6 (skipn (6 * i) col)))
          /\ (n = 0 -> m = zeros zero 0 1)).
Proof.
  intros Hn Hsix.
  pose proof (soft_contact_forces_run Hn) as Hrun.
  assert (Hlen : length (repeat zero (n * 6)) = 6 * n) by (rewrite repeat_length; lia).
  split.
  - intros Hok.
    destruct (@soft_contact_loop_returns n n Hok Hsix 0 _ s eq_refl Hlen) as [res Hres].
    exists res. rewrite Hrun. exact Hres.
  - intros m Hm. rewrite Hrun in Hm |- *.
    destruct (run h (for_each (soft_contact_step q qdot) (seq 0 n)
                       (colvec (repeat zero (n * 6)))) s)
      as [res s' l] eqn:Hloop.
    unfold logged in Hm |- *; simpl in Hm |- *. subst res.
    destruct (@soft_contact_loop n n 0 _ s m s' l eq_refl Hlen Hloop)
      as (col & forces & -> & Hl & Hlog & Hlf & _ & _ & Hblocks).
    exists col, forces, l.
    split; [reflexivity | split; [exact Hl | split; [reflexivity |]]].
    split; [reflexivity | split; [exact Hlog | split; [exact Hlf | split]]].
    + intros i Hi. exact (Hblocks i Hi).
    + intros ->. destruct col; [reflexivity | discriminate].
Qed.

End SoftContacts.

(** ** Error propagation *)
Section ErrorPropagation.
Context {E : Engine}.

Lemma library_failure_not_raised {A : Type} (h : handler) (p : prog A) s (e : lib_error) :
  returned (run h p s) = inl (LibraryFailure e) ->
  forall e', ~ engine_raised (log (run h p s)) e'.
Proof.
  intros Hret e' Hr. apply raised_propagates in Hr. destruct Hr as [Hr _].
  rewrite Hret in Hr. discriminate.
Qed.

Lemma an_MX_fails (h : handler) (p : prog MX) s (f : failure) :
  returned (run h (an_MX p) s) = inl f -> returned (run h p s) = inl f.
Proof.
  unfold an_MX. rewrite run_bind. unfold and_then.
  destruct (run h p s) as [[f' | m] s' l]; simpl; [intros [= ->]; reflexivity | discriminate].
Qed.

(** C7 (as amended).  Whatever the engine and the operation: when an engine
    call raises, that call is the last one the operation makes and the
    operation fails with that very exception (nothing is caught, translated,
    retried or recovered).  Every operation other than [soft_contact_forces]
    and [reshape_fext_to_fcontact] fails exactly when an engine call fails,
    and so does [soft_contact_forces] when the engine's forces have six
    rows; a failure that no engine call caused is a failure of the matrix
    library in one of these two.  [reshape_fext_to_fcontact] returns when
    [fext] has at least as many entries as the contacts have axes, and
    fails in the matrix library, no engine call having failed, when it has
    fewer. *)
Theorem engine_errors_propagate_unchanged (h : handler) (o : op) (s : engine_state) :
  (forall e, engine_raised (log (run h (dispatch o) s)) e ->
     returned (run h (dispatch o) s) = inl (EngineFailure e)
     /\ exists l0 c, log (run h (dispatch o) s) = l0 ++ [Ev c (inl e)] /\ clean l0)
  /\ (uses_matrix_indexing o = false ->
      (failed (run h (dispatch o) s)
       <-> exists e, engine_raised (log (run h (dispatch o) s)) e))
  /\ (forall q qdot n,
        o = op_soft_contact_forces q qdot ->
        reads h (Call (biorbd.Count biorbd.nbSoftContacts) []) s n ->
        wrenches_have_six_rows h ->
        (failed (run h (dispatch o) s)
         <-> exists e, engine_raised (log (run h (dispatch o) s)) e))
  /\ (forall f,
        returned (run h (dispatch o) s) = inl f ->
        (forall e, ~ engine_raised (log (run h (dispatch o) s)) e) ->
        uses_matrix_indexing o = true /\ exists e, f = LibraryFailure e)
  /\ (forall v axes,
        o = op_reshape_fext_to_fcontact (colvec v) ->
        rigid_contacts h s axes ->
        (total_axes axes <= length v ->
         exists blocks, returned (run h (dispatch o) s) = inr (VVecBiorbdVector blocks))
        /\ (length v < total_axes axes ->
            returned (run h (dispatch o) s) = inl (LibraryFailure OutOfBounds)
            /\ forall e, ~ engine_raised (log (run h (dispatch o) s)) e)).
Proof.
  split; [| split; [| split; [| split]]].
  - intros e He. now apply raised_propagates.
  - intros Hfw; split.
    + intros [f Hf].
      destruct (raise_free_failure h (forwarding_is_raise_free o Hfw) s Hf)
        as (e & _ & He).
      now exists e.
    + intros [e He]. exists (EngineFailure e). now apply raised_propagates.
  - intros q qdot n -> Hn Hsix. split.
    + intros [f Hf]. pose proof Hf as Hf'. cbn [dispatch] in Hf'.
      apply an_MX_fails in Hf'.
      destruct (soft_contact_forces_failure q qdot Hn Hsix Hf') as [e ->].
      exists e. now apply engine_failure_raised.
    + intros [e He]. exists (EngineFailure e). now apply raised_propagates.
  - intros f Hf Hno. split.
    + destruct (uses_matrix_indexing o) eqn:Hfw; [reflexivity |].
      destruct (raise_free_failure h (forwarding_is_raise_free o Hfw) s Hf)
        as (e & _ & He).
      now elim (Hno e).
    + destruct f as [e | e]; [| now exists e].
      elim (Hno e). now apply engine_failure_raised.
  - intros v axes -> Hview. split.
    + intros Hle. rewrite <- (nonzeros_colvec v) in Hle.
      exists (map colvec (slices (map (@length nat) axes) (nonzeros (colvec v)))).
      cbn [dispatch].
      erewrite returned_bind_yields by exact (reshape_returns (colvec v) Hview Hle).
      reflexivity.
    + intros Hlt. rewrite <- (nonzeros_colvec v) in Hlt.
      assert (Hret : returned (run h (dispatch (op_reshape_fext_to_fcontact (colvec v))) s)
                     = inl (LibraryFailure OutOfBounds)).
      { cbn [dispatch]. apply returned_bind_fails. now apply reshape_short_fext with axes. }
      split; [exact Hret | now apply library_failure_not_raised with OutOfBounds].
Qed.

End ErrorPropagation.

(** ** Names, counts and indices *)
Section Names.
Context {E : Engine}.
Variable h : handler.

Lemma index_of_finds (name : string) (names : list string) :
  In name names ->
  exists i, index_of name names = Some i /\ nth_error names i = Some name.
Proof.
  induction names as [| n rest IH]; intros Hin; [contradiction |]. simpl.
  destruct (String.eqb_spec n name) as [-> | Hne].
  - now exists 0.
  - destruct Hin as [-> | Hin]; [contradiction |].
    destruct (IH Hin) as (i & -> & Hnth). now exists (S i).
Qed.

Lemma index_of_first (name : string) (names : list string) (i : nat) :
  index_of name names = Some i ->
  nth_error names i = Some name
  /\ forall j, j < i -> nth_error names j <> Some name.
Proof.
  revert i; induction names as [| n rest IH]; intros i; simpl; [discriminate |].
  destruct (String.eqb_spec n name) as [-> | Hne].
  - intros [= <-]. split; [reflexivity | intros j Hj; lia].
  - destruct (index_of name rest) as [i' |]; [| discriminate].
    intros [= <-]. destruct (IH i' eq_refl) as [Hnth Hfirst].
    split; [exact Hnth |].
    intros [| j] Hj; simpl; [congruence | apply Hfirst; lia].
Qed.

(** C5.  Where the engine's [marker_index] looks the name up among its
    marker names: for every name that occurs in [marker_names],
    [marker_index] returns an index, and [marker_names] at that index is
    the name. *)
Theorem marker_index_round_trip
        (s : engine_state) (names : list biorbd.String) (name : string) :
  marker_index_looks_up h s names ->
  In name (to_string_tuple names) ->
  returned (run h marker_names s) = inr (to_string_tuple names)
  /\ (exists i,
        returned (run h (marker_index (VStr name)) s) = inr i
        /\ nth_error (to_string_tuple names) i = Some name)
  /\ returned (run h (marker_name_at_its_index name) s) = inr name
  /\ final (run h (marker_name_at_its_index name) s) = s.
Proof.
  intros [Hnames Hidx] Hin.
  destruct (index_of_finds _ _ Hin) as (i & Hi & Hnth).
  specialize (Hidx name i Hi).
  assert (Hn : yields (run h marker_names s) (to_string_tuple names) s).
  { unfold marker_names. eapply yields_bind; [exact (yields_reads Hnames) |].
    now split. }
  assert (Hm : yields (run h (marker_index (VStr name)) s) i s)
    by exact (yields_reads Hidx).
  split; [exact (proj1 Hn) | split; [exists i; split; [exact (proj1 Hm) | exact Hnth] |]].
  apply (@yields_bind _ h _ _ marker_names _ s _ s name s Hn).
  eapply yields_bind; [exact Hm |].
  unfold tuple_getitem. rewrite Hnth. now split.
Qed.

(** C6.  Where the engine's counts are the sizes of the collections its
    name queries list: [nb_q] is the length of the tuple [name_dof] returns
    and [nb_markers] is the length of the tuple [marker_names] returns; the
    tuples hold the engine's names, in the engine's order. *)
Theorem counts_match_name_tuples (s : engine_state) :
  counts_are_sizes h s ->
  exists n dofs k marks,
    returned (run h nb_q s) = inr n
    /\ returned (run h name_dof s) = inr (to_string_tuple dofs)
    /\ n = length (to_string_tuple dofs)
    /\ returned (run h nb_markers s) = inr k
    /\ returned (run h marker_names s) = inr (to_string_tuple marks)
    /\ k = length (to_string_tuple marks).
Proof.
  intros (dofs & marks & Hd & Hq & Hm & Hk).
  exists (length dofs), dofs, (length marks), marks.
  assert (Hlen : forall l, length (to_string_tuple l) = length l)
    by (intros l; apply length_map).
  repeat split.
  - exact (proj1 (yields_reads Hq)).
  - unfold name_dof. rewrite run_bind, (run_call_reads Hd). reflexivity.
  - now rewrite Hlen.
  - exact (proj1 (yields_reads Hk)).
  - unfold marker_names. rewrite run_bind, (run_call_reads Hm). reflexivity.
  - now rewrite Hlen.
Qed.

End Names.

(** ** Marker velocities in a reference frame *)
Section MarkerVelocities.
Context {E : Engine}.
Variable h : handler.

Lemma transformed_by_identity (ms : list native) :
  (forall m, applyRT RotoTrans m = m) ->
  transformed_markers RotoTrans ms = map to_mx ms.
Proof.
  intros Hid. induction ms as [| m ms IH]; simpl; [reflexivity |].
  now rewrite Hid, IH.
Qed.

(** Every marker passes the condition of the comprehension, transformed. *)
Lemma transformed_markers_map (jcs_t : native) (ms : list native) :
  transformed_markers jcs_t ms = map (fun m => to_mx (applyRT jcs_t m)) ms.
Proof. induction ms as [| m ms IH]; simpl; [reflexivity | now rewrite IH]. Qed.

(** C2 (as amended).  For a reference frame whose transform at [q] is the
    identity, [marker_velocities] is the frame query followed by exactly
    what it does without a reference frame: every marker passes the
    condition of the comprehension and comes out as the engine gave it.
    So, for every [q], [qdot] and update flag, it returns the matrix that
    the call without a reference frame returns from the state the frame
    query leaves, ends in the same state, and its calls are the frame query
    followed by those of the call without a frame.  The two calls return
    the same matrix from the same state where the frame query leaves the
    engine as it was, and where the engine's answer to [markersVelocity]
    on these arguments does not depend on the state it is asked in. *)
Theorem marker_velocities_in_the_identity_frame
        (q qdot update_kin reference_jcs : value) (s s' : engine_state) :
  identity_transform_laws ->
  is_none reference_jcs = false ->
  h (Call (biorbd.Obj biorbd.globalJCS) [q; reference_jcs]) s = (inr RotoTrans, s') ->
  (returned (run h (marker_velocities q qdot update_kin reference_jcs) s)
   = returned (run h (marker_velocities q qdot update_kin VNone) s')
   /\ final (run h (marker_velocities q qdot update_kin reference_jcs) s)
      = final (run h (marker_velocities q qdot update_kin VNone) s')
   /\ log (run h (marker_velocities q qdot update_kin reference_jcs) s)
      = Ev (Call (biorbd.Obj biorbd.globalJCS) [q; reference_jcs]) (inr RotoTrans)
        :: log (run h (marker_velocities q qdot update_kin VNone) s'))
  /\ (s' = s ->
      returned (run h (marker_velocities q qdot update_kin reference_jcs) s)
      = returned (run h (marker_velocities q qdot update_kin VNone) s)
      /\ final (run h (marker_velocities q qdot update_kin reference_jcs) s)
         = final (run h (marker_velocities q qdot update_kin VNone) s))
  /\ ((forall s1 s2,
         fst (h (Call (biorbd.Objs biorbd.markersVelocity) [q; qdot; update_kin]) s1)
         = fst (h (Call (biorbd.Objs biorbd.markersVelocity) [q; qdot; update_kin]) s2)) ->
      returned (run h (marker_velocities q qdot update_kin reference_jcs) s)
      = returned (run h (marker_velocities q qdot update_kin VNone) s)).
Proof.
  intros [Ht Hid] Href Hframe.
  assert (Hgen : returned (run h (marker_velocities q qdot update_kin reference_jcs) s)
                 = returned (run h (marker_velocities q qdot update_kin VNone) s')
                 /\ final (run h (marker_velocities q qdot update_kin reference_jcs) s)
                    = final (run h (marker_velocities q qdot update_kin VNone) s')
                 /\ log (run h (marker_velocities q qdot update_kin reference_jcs) s)
                    = Ev (Call (biorbd.Obj biorbd.globalJCS) [q; reference_jcs])
                         (inr RotoTrans)
                      :: log (run h (marker_velocities q qdot update_kin VNone) s')).
  { unfold marker_velocities. rewrite Href.
    unfold global_homogeneous_matrices, call. simpl.
    rewrite Hframe. clear Hframe. simpl. rewrite Ht.
    destruct (h _ s') as [[e | ms] s'']; simpl; [now repeat split |].
    rewrite transformed_by_identity by exact Hid. now repeat split. }
  split; [exact Hgen | split].
  - intros ->. destruct Hgen as (Hr & Hf & _). now split.
  - intros Hsame. destruct Hgen as (-> & _). clear Hframe.
    unfold marker_velocities, call. simpl.
    specialize (Hsame s' s).
    destruct (h _ s') as [[e1 | ms1] s1], (h _ s) as [[e2 | ms2] s2];
      simpl in Hsame |- *; congruence.
Qed.

End MarkerVelocities.

(** ** Which engine methods an operation calls, and how often *)
Section CallStructure.
Context {E : Engine}.

Lemma only_calls_log {A : Type} (P : biorbd.method -> Prop) (h : handler) (p : prog A) :
  only_calls P p ->
  forall s c, In c (calls (log (run h p s))) -> P (callee c).
Proof.
  induction 1 as [a | e | c k Hc Hk IH]; intros s c' Hin; simpl in Hin;
    try contradiction.
  destruct (h c s) as [[e | r] s']; simpl in Hin.
  - destruct Hin as [<- | []]. exact Hc.
  - destruct Hin as [<- | Hin]; [exact Hc | exact (IH r s' c' Hin)].
Qed.

Lemma only_calls_bind {A B : Type} (P : biorbd.method -> Prop)
      (p : prog A) (f : A -> prog B) :
  only_calls P p -> (forall a, only_calls P (f a)) -> only_calls P (bind p f).
Proof.
  induction 1 as [a | e | c k Hc Hk IH]; intros Hf; simpl;
    [apply Hf | constructor |].
  constructor; [exact Hc | intros r; now apply IH].
Qed.

Lemma only_calls_for_each {A X : Type} (P : biorbd.method -> Prop)
      (body : A -> X -> prog A) :
  (forall acc x, only_calls P (body acc x)) ->
  forall l acc, only_calls P (for_each body l acc).
Proof.
  intros Hbody l. induction l as [| x l IH]; intros acc; simpl; [constructor |].
  apply only_calls_bind; [apply Hbody | exact IH].
Qed.

Lemma only_calls_lift {A : Type} (P : biorbd.method -> Prop) (r : lib_error + A) :
  only_calls P (lift r).
Proof. destruct r; constructor. Qed.

Ltac footprinter :=
  repeat first
    [ apply only_calls_Ret
    | apply only_calls_Raise
    | apply only_calls_lift
    | apply only_calls_Do; [simpl; tauto | intros ?]
    | match goal with
      | |- only_calls _ (bind (lift _) _) =>
          apply only_calls_bind; [apply only_calls_lift | intros ?]
      end
    | progress simpl
    | match goal with
      | |- context [let (_, _) := ?r in _] => destruct r
      | |- only_calls _ (match ?x with _ => _ end) => destruct x
      | |- only_calls _ (if ?b then _ else _) => destruct b
      | |- only_calls _ (bind (if ?b then _ else _) _) => destruct b
      end ].

Lemma dispatch_within_footprint (o : op) :
  only_calls (fun f => In f (footprint o)) (dispatch o).
Proof.
  destruct o;
    try solve [ cbn [dispatch footprint];
                unfold an_int, an_MX, an_object, a_str_tuple, __init__, deep_copy, gravity,
                  set_gravity, nb_tau, nb_segments, segment_index, nb_quaternions, nb_q,
                  nb_qdot, nb_qddot, nb_root, segments, global_homogeneous_matrices,
                  child_homogeneous_matrices, mass, center_of_mass,
                  center_of_mass_velocity, center_of_mass_acceleration, angular_momentum,
                  reshape_qdot, segment_angular_velocity, name_dof, contact_names,
                  nb_soft_contacts, soft_contact_names, soft_contact, muscle_names,
                  nb_muscles, torque, forward_dynamics_free_floating_base,
                  forward_dynamics, constrained_forward_dynamics, inverse_dynamics,
                  contact_forces_from_constrained_forward_dynamics, qdot_from_impact,
                  state_set, muscle_activation_dot, muscle_joint_torque, markers,
                  nb_markers, marker_index, marker, nb_rigid_contacts, nb_contacts, path,
                  marker_velocities, tau_max, rigid_contact_acceleration,
                  object_homogeneous_matrix, nb_dof, marker_names, call;
                footprinter ].
  - (* soft_contact_forces *)
    cbn [dispatch footprint]. unfold an_MX, soft_contact_forces.
    apply only_calls_bind; [| intros m; constructor].
    apply only_calls_bind; [unfold nb_soft_contacts, call; footprinter | intros rows].
    apply only_calls_bind; [unfold nb_soft_contacts, call; footprinter | intros n].
    apply only_calls_for_each. intros acc i.
    unfold soft_contact_step, soft_contact, call. footprinter.
  - (* reshape_fext_to_fcontact *)
    cbn [dispatch footprint]. unfold reshape_fext_to_fcontact.
    apply only_calls_bind; [| intros l; constructor].
    apply only_calls_bind; [unfold nb_rigid_contacts, call; footprinter | intros n].
    apply only_calls_bind; [| intros st; constructor].
    apply only_calls_for_each. intros [count acc] ii.
    unfold reshape_step, call. footprinter.
Qed.

(** X1.  Whatever the engine answers, an operation calls only the engine
    methods its body names.  In particular only [set_gravity] calls the
    engine's [setGravity], only the construction from a path calls
    [biorbd.Model], and only [deep_copy] calls [DeepCopy]. *)
Theorem operations_call_only_their_engine_methods
        (h : handler) (o : op) (s : engine_state) :
  (forall c, In c (calls (log (run h (dispatch o) s))) -> In (callee c) (footprint o))
  /\ (invokes biorbd.setGravity (log (run h (dispatch o) s)) ->
      exists newGravity, o = op_set_gravity newGravity)
  /\ (invokes (biorbd.Obj biorbd.Model) (log (run h (dispatch o) s)) ->
      exists path, o = op_init (VStr path))
  /\ (invokes (biorbd.Obj biorbd.DeepCopy) (log (run h (dispatch o) s)) ->
      exists args, o = op_deep_copy args).
Proof.
  assert (Hfp : forall c, In c (calls (log (run h (dispatch o) s))) ->
                          In (callee c) (footprint o))
    by (intros c; apply (only_calls_log h (dispatch_within_footprint o))).
  split; [exact Hfp |].
  repeat split; intros (c & Hin & Hc); apply Hfp in Hin; rewrite Hc in Hin; clear Hfp Hc;
    destruct o; cbn [footprint] in Hin;
    repeat match type of Hin with
           | context [if ?b then _ else _] => destruct b
           | context [match ?x with _ => _ end] => destruct x
           end;
    simpl in Hin; intuition (try discriminate); eauto.
Qed.

(** X2.  An operation without a loop makes at most the number of engine
    calls of the branch its arguments select (none for [markers] without
    arguments, for [marker] with at most one argument and for wrapping an
    existing model object; two for [marker_velocities] with a reference
    frame; one otherwise), and exactly that number whenever it returns. *)
Theorem operations_without_a_loop_bound_their_calls
        (h : handler) (o : op) (s : engine_state) (n : nat) :
  call_bound o = Some n ->
  length (log (run h (dispatch o) s)) <= n
  /\ (forall v, returned (run h (dispatch o) s) = inr v ->
                length (log (run h (dispatch o) s)) = n).
Proof.
  intros Hb.
  destruct o; cbn [call_bound] in Hb;
    repeat match type of Hb with
           | context [match ?x with _ => _ end] => destruct x eqn:?
           end;
    try discriminate; injection Hb as <-;
    cbn [dispatch];
    unfold an_int, an_MX, an_object, a_str_tuple, __init__, deep_copy, gravity,
      set_gravity, nb_tau, nb_segments, segment_index, nb_quaternions, nb_q,
      nb_qdot, nb_qddot, nb_root, segments, global_homogeneous_matrices,
      child_homogeneous_matrices, mass, center_of_mass,
      center_of_mass_velocity, center_of_mass_acceleration, angular_momentum,
      reshape_qdot, segment_angular_velocity, name_dof, contact_names,
      nb_soft_contacts, soft_contact_names, soft_contact, muscle_names,
      nb_muscles, torque, forward_dynamics_free_floating_base,
      forward_dynamics, constrained_forward_dynamics, inverse_dynamics,
      contact_forces_from_constrained_forward_dynamics, qdot_from_impact,
      state_set, muscle_activation_dot, muscle_joint_torque, markers,
      nb_markers, marker_index, marker, nb_rigid_contacts, nb_contacts, path,
      marker_velocities, tau_max, rigid_contact_acceleration,
      object_homogeneous_matrix, nb_dof, marker_names, call;
    repeat match goal with
           | H : ?b = _ |- context [if ?b then _ else _] => rewrite H
           end;
    simpl;
    repeat match goal with
           | |- context [h ?c ?s0] => destruct (h c s0) as [[?e | ?r] ?s1]; simpl
           | |- context [let (_, _) := ?r in _] => destruct r; simpl
           end;
    (split; [lia | intros ?v Hv; first [discriminate Hv | reflexivity]]).
Qed.

(** X3.  The operations whose body returns the engine's result as it is
    ([segments], [global_homogeneous_matrices], [child_homogeneous_matrices],
    [angular_momentum], [segment_angular_velocity], [soft_contact],
    [state_set], [path], [object_homogeneous_matrix]) make one engine call,
    with the arguments they were given in the order of the body, and,
    whenever they return, return the very object the engine answered to
    that call, not a matrix of the framework, leaving the engine in the
    state that call left. *)
Theorem unconverted_results_are_engine_objects
        (h : handler) (o : op) (s : engine_state) (v : value) :
  returns_native o = true ->
  returned (run h (dispatch o) s) = inr v ->
  exists f a r s',
    forwarded_call o = Some (f, a)
    /\ h (Call (biorbd.Obj f) a) s = (inr r, s')
    /\ v = VNative r
    /\ is_MX v = false
    /\ final (run h (dispatch o) s) = s'
    /\ log (run h (dispatch o) s) = [Ev (Call (biorbd.Obj f) a) (inr r)].
Proof.
  intros Hn Hv.
  assert (Hf : exists f a, forwarded_call o = Some (f, a) /\ converts o = false)
    by (destruct o; simpl in Hn; try discriminate; simpl; eauto).
  destruct Hf as (f & a & Hf & Hc).
  rewrite (forwarded_call_run h _ s Hf), Hc in Hv |- *.
  destruct (h _ s) as [[e | r] s'] eqn:Hh; simpl in Hv; [discriminate |].
  injection Hv as <-. exists f, a, r, s'. now repeat split.
Qed.

(** X4.  Each name accessor ([name_dof], [contact_names],
    [soft_contact_names], [muscle_names], [marker_names]) makes one engine
    call, the name getter without arguments.  Where that getter is a read
    answering [names], the accessor returns the tuple of their strings, of
    the same length and in the same order, leaves the state as it was, and
    any number of invocations in a row return that same tuple. *)
Theorem name_accessors_mirror_the_engine_names
        (h : handler) (o : op) (g : biorbd.names_method)
        (s : engine_state) (names : list biorbd.String) :
  names_accessor o = Some g ->
  reads h (Call (biorbd.Names g) []) s names ->
  exists tuple,
    returned (run h (dispatch o) s) = inr (VTuple tuple)
    /\ length tuple = length names
    /\ (forall i name, nth_error names i = Some name ->
                       nth_error tuple i = Some (VStr (biorbd.to_string name)))
    /\ final (run h (dispatch o) s) = s
    /\ calls (log (run h (dispatch o) s)) = [Call (biorbd.Names g) []]
    /\ forall k, invocations h (dispatch o) k s = (repeat (inr (VTuple tuple)) k, s).
Proof.
  intros Hacc Hread.
  exists (map VStr (to_string_tuple names)).
  assert (Hone : run h (dispatch o) s
                 = Outcome (inr (VTuple (map VStr (to_string_tuple names)))) s
                     [Ev (Call (biorbd.Names g) []) (inr names)]).
  { destruct o; simpl in Hacc; try discriminate; injection Hacc as <-;
      unfold reads in Hread; simpl; rewrite Hread; reflexivity. }
  rewrite Hone. simpl.
  split; [reflexivity | split; [| split; [| split; [reflexivity | split; [reflexivity |]]]]].
  - unfold to_string_tuple. now rewrite !length_map.
  - intros i name Hi. unfold to_string_tuple. rewrite map_map, nth_error_map, Hi.
    reflexivity.
  - induction k as [| k IH]; simpl; [reflexivity |].
    rewrite Hone. simpl. now rewrite IH.
Qed.

End CallStructure.

(** ** The engine calls of the reshaping, and its inverse *)
Section ReshapeCalls.
Context {E : Engine}.
Variable h : handler.

Lemma run_for_each_app {A X : Type} (body : A -> X -> prog A) (l1 l2 : list X) :
  forall acc s,
    run h (for_each body (l1 ++ l2) acc) s
    = and_then h (run h (for_each body l1 acc) s) (for_each body l2).
Proof.
  induction l1 as [| x l1 IH]; intros acc s.
  - unfold and_then; simpl. now destruct (run h (for_each body l2 acc) s).
  - simpl app. rewrite !for_each_cons, !run_bind.
    destruct (run h (body acc x) s) as [[e | a] s1 l]; unfold and_then; simpl;
      [reflexivity |].
    rewrite IH. unfold and_then.
    destruct (run h (for_each body l1 a) s1) as [[e | a'] s2 l']; simpl;
      [reflexivity |].
    now rewrite app_assoc.
Qed.

Lemma reshape_step_run (fext : MX) (s : engine_state) (ii count : nat)
      (acc : list MX) (a : list nat) :
  reads h (axis_call ii) s a ->
  count + length a <= length (nonzeros fext) ->
  run h (reshape_step fext (count, acc) ii) s
  = Outcome (inr (count + length a,
                  acc ++ [colvec (firstn (length a) (skipn count (nonzeros fext)))]))
      s [Ev (axis_call ii) (inr a)].
Proof.
  intros Ha Hle. unfold axis_call in *. unfold reshape_step.
  rewrite run_bind, (run_call_reads Ha). unfold and_then. cbn [returned final log].
  unfold getitem. rewrite get_all_range by exact Hle. reflexivity.
Qed.

Lemma reshape_step_overrun (fext : MX) (s : engine_state) (ii count : nat)
      (acc : list MX) (a : list nat) :
  reads h (axis_call ii) s a ->
  count <= length (nonzeros fext) ->
  length (nonzeros fext) < count + length a ->
  run h (reshape_step fext (count, acc) ii) s
  = Outcome (inl (LibraryFailure OutOfBounds)) s [Ev (axis_call ii) (inr a)].
Proof.
  intros Ha Hc Hlt. unfold axis_call in *. unfold reshape_step.
  rewrite run_bind, (run_call_reads Ha). unfold and_then. cbn [returned final log].
  unfold getitem. rewrite get_all_out_of_range by assumption. reflexivity.
Qed.

Lemma reshape_prefix_run (fext : MX) (s : engine_state) (mid : list (list nat)) :
  forall (k count : nat) (acc : list MX),
    (forall j, j < length mid -> reads h (axis_call (k + j)) s (nth j mid [])) ->
    count + total_axes mid <= length (nonzeros fext) ->
    run h (for_each (reshape_step fext) (seq k (length mid)) (count, acc)) s
    = Outcome (inr (count + total_axes mid,
                    acc ++ map colvec (slices (map (@length nat) mid)
                                         (skipn count (nonzeros fext)))))
        s (axis_events k mid).
Proof.
  induction mid as [| a mid IH]; intros k count acc Hreads Hle.
  - simpl. unfold total_axes; simpl. now rewrite Nat.add_0_r, app_nil_r.
  - unfold total_axes in *; simpl in Hle.
    change (seq k (length (a :: mid))) with (k :: seq (S k) (length mid)).
    rewrite for_each_cons, run_bind.
    assert (Ha : reads h (axis_call k) s a).
    { specialize (Hreads 0). rewrite Nat.add_0_r in Hreads. apply Hreads. simpl; lia. }
    erewrite reshape_step_run; [| exact Ha | lia].
    unfold and_then. cbn [returned final log].
    rewrite IH.
    + simpl. rewrite <- app_assoc, skipn_skipn, (Nat.add_comm (length a) count).
      simpl. do 3 f_equal. lia.
    + intros j Hj. specialize (Hreads (S j)).
      replace (S k + j) with (k + S j) by lia. apply Hreads. simpl; lia.
    + lia.
Qed.

Lemma calls_axis_events (k : nat) (axes : list (list nat)) :
  calls (axis_events k axes) = map axis_call (seq k (length axes)).
Proof.
  revert k; induction axes as [| a axes IH]; intros k; simpl; [reflexivity |].
  f_equal. apply IH.
Qed.

Lemma nb_rigid_contacts_run (s : engine_state) (n : nat) :
  reads h (Call (biorbd.Count biorbd.nbRigidContacts) []) s n ->
  run h nb_rigid_contacts s
  = Outcome (inr n) s [Ev (Call (biorbd.Count biorbd.nbRigidContacts) []) (inr n)].
Proof. intros Hn. exact (run_call_reads Hn). Qed.

Lemma slices_of_concat {T : Type} (blocks : list (list T)) :
  slices (map (@length T) blocks) (concat blocks) = blocks.
Proof.
  induction blocks as [| b blocks IH]; simpl; [reflexivity |].
  rewrite firstn_app_exact by reflexivity.
  rewrite skipn_app_exact by reflexivity. now rewrite IH.
Qed.

(** X5.  On a flat vector with at least as many entries as the contacts
    have axes, [reshape_fext_to_fcontact] asks the engine for the number of
    rigid contacts once and then for the axes of contact 0, 1, ... in index
    order, once each, and for nothing else; it leaves the engine state as it
    was.  With no rigid contact it returns the empty container for every
    [fext], after the one call for the count. *)
Theorem reshape_fext_to_fcontact_asks_each_contact_once
        (s : engine_state) (axes : list (list nat)) (v : list scalar) :
  rigid_contacts h s axes ->
  total_axes axes <= length v ->
  calls (log (run h (reshape_fext_to_fcontact (colvec v)) s))
  = Call (biorbd.Count biorbd.nbRigidContacts) [] :: axis_calls (length axes)
  /\ final (run h (reshape_fext_to_fcontact (colvec v)) s) = s
  /\ (axes = [] ->
      forall fext : MX,
        run h (reshape_fext_to_fcontact fext) s
        = Outcome (inr [])
            s [Ev (Call (biorbd.Count biorbd.nbRigidContacts) []) (inr 0)]).
Proof.
  intros [Hn Hax] Hle.
  assert (Hrun : run h (reshape_fext_to_fcontact (colvec v)) s
                 = Outcome (inr (map colvec (slices (map (@length nat) axes) v))) s
                     (Ev (Call (biorbd.Count biorbd.nbRigidContacts) [])
                         (inr (length axes))
                      :: axis_events 0 axes)).
  { assert (Hloop : run h (for_each (reshape_step (colvec v)) (seq 0 (length axes))
                             (0, [])) s
                    = Outcome (inr (total_axes axes,
                                    map colvec (slices (map (@length nat) axes) v)))
                        s (axis_events 0 axes)).
    { rewrite (@reshape_prefix_run (colvec v) s axes 0 0 []).
      - now rewrite nonzeros_colvec.
      - intros j Hj. simpl. now apply Hax.
      - rewrite nonzeros_colvec. simpl. exact Hle. }
    unfold reshape_fext_to_fcontact.
    rewrite run_bind, (nb_rigid_contacts_run Hn). unfold and_then.
    cbn [returned final log]. rewrite run_bind, Hloop. unfold and_then. simpl.
    now rewrite app_nil_r. }
  split; [| split].
  - rewrite Hrun. simpl. f_equal. apply calls_axis_events.
  - now rewrite Hrun.
  - intros -> fext. unfold reshape_fext_to_fcontact.
    rewrite run_bind, (nb_rigid_contacts_run Hn). reflexivity.
Qed.

(** X6.  Cutting undoes concatenation: for blocks whose lengths are the
    contacts' axis counts, in contact order, [reshape_fext_to_fcontact] of
    the blocks put end to end returns these very blocks. *)
Theorem reshape_fext_to_fcontact_of_concatenated_blocks
        (s : engine_state) (axes : list (list nat)) (blocks : list (list scalar)) :
  rigid_contacts h s axes ->
  map (@length scalar) blocks = map (@length nat) axes ->
  returned (run h (reshape_fext_to_fcontact (colvec (concat blocks))) s)
  = inr (map colvec blocks).
Proof.
  intros Hview Hlen.
  assert (Hsum : total_axes axes = length (concat blocks)).
  { unfold total_axes. rewrite <- Hlen. clear.
    induction blocks as [| b blocks IH]; simpl; [reflexivity |].
    rewrite length_app. now rewrite IH. }
  destruct (@reshape_returns E h (colvec (concat blocks)) s axes Hview) as [Hret _].
  { rewrite nonzeros_colvec. lia. }
  rewrite Hret, nonzeros_colvec, <- Hlen. now rewrite slices_of_concat.
Qed.

(** X7.  On a flat vector that is too short, [reshape_fext_to_fcontact]
    stops at the first contact whose block would run past the end of
    [fext]: it has asked the engine for the count and for the axes of the
    contacts up to that one, and of no later contact, when the subscript
    fails; the blocks cut before are lost and the engine state is as it
    was. *)
Theorem reshape_fext_to_fcontact_stops_at_the_overrun
        (s : engine_state) (axes : list (list nat)) (v : list scalar) (i : nat) :
  rigid_contacts h s axes ->
  i < length axes ->
  offset axes i <= length v ->
  length v < offset axes (S i) ->
  returned (run h (reshape_fext_to_fcontact (colvec v)) s)
  = inl (LibraryFailure OutOfBounds)
  /\ final (run h (reshape_fext_to_fcontact (colvec v)) s) = s
  /\ calls (log (run h (reshape_fext_to_fcontact (colvec v)) s))
     = Call (biorbd.Count biorbd.nbRigidContacts) [] :: axis_calls (S i).
Proof.
  intros [Hn Hax] Hi Hlo Hhi.
  assert (Hseq : seq 0 (length axes)
                 = seq 0 (length (firstn i axes)) ++ i :: seq (S i) (length axes - S i)).
  { rewrite length_firstn, Nat.min_l by lia.
    replace (length axes) with (i + S (length axes - S i)) at 1 by lia.
    rewrite seq_app. reflexivity. }
  assert (Hpre : run h (for_each (reshape_step (colvec v))
                          (seq 0 (length (firstn i axes))) (0, [])) s
                 = Outcome (inr (offset axes i,
                                 map colvec (slices (map (@length nat) (firstn i axes)) v)))
                     s (axis_events 0 (firstn i axes))).
  { rewrite (@reshape_prefix_run (colvec v) s (firstn i axes) 0 0 []).
    - now rewrite nonzeros_colvec.
    - intros j Hj. rewrite length_firstn in Hj. rewrite nth_firstn.
      destruct (Nat.ltb_spec j i); [| lia]. simpl. apply Hax. lia.
    - rewrite nonzeros_colvec. simpl. exact Hlo. }
  assert (Hstep : forall acc,
             run h (reshape_step (colvec v) (offset axes i, acc) i) s
             = Outcome (inl (LibraryFailure OutOfBounds)) s
                 [Ev (axis_call i) (inr (nth i axes []))]).
  { intros acc. apply reshape_step_overrun.
    - now apply Hax.
    - now rewrite nonzeros_colvec.
    - rewrite nonzeros_colvec, <- offset_succ by exact Hi. exact Hhi. }
  assert (Hrun : run h (reshape_fext_to_fcontact (colvec v)) s
                 = Outcome (inl (LibraryFailure OutOfBounds)) s
                     (Ev (Call (biorbd.Count biorbd.nbRigidContacts) [])
                         (inr (length axes))
                      :: axis_events 0 (firstn i axes)
                         ++ [Ev (axis_call i) (inr (nth i axes []))])).
  { assert (Htail : forall acc,
               run h (for_each (reshape_step (colvec v))
                        (i :: seq (S i) (length axes - S i)) (offset axes i, acc)) s
               = Outcome (inl (LibraryFailure OutOfBounds)) s
                   [Ev (axis_call i) (inr (nth i axes []))]).
    { intros acc. rewrite for_each_cons, run_bind, Hstep. reflexivity. }
    assert (Hloop : run h (for_each (reshape_step (colvec v)) (seq 0 (length axes))
                             (0, [])) s
                    = Outcome (inl (LibraryFailure OutOfBounds)) s
                        (axis_events 0 (firstn i axes)
                         ++ [Ev (axis_call i) (inr (nth i axes []))])).
    { rewrite Hseq, run_for_each_app, Hpre. unfold and_then.
      cbn [returned final log]. rewrite Htail. reflexivity. }
    unfold reshape_fext_to_fcontact.
    rewrite run_bind, (nb_rigid_contacts_run Hn). unfold and_then.
    cbn [returned final log]. rewrite run_bind, Hloop. reflexivity. }
  rewrite Hrun. cbn [returned final log]. split; [reflexivity | split; [reflexivity |]].
  unfold calls. simpl. f_equal. rewrite map_app. fold (calls (axis_events 0 (firstn i axes))).
  rewrite calls_axis_events, length_firstn, Nat.min_l by lia.
  unfold axis_calls. rewrite seq_S, map_app. reflexivity.
Qed.

End ReshapeCalls.

(** ** Marker velocities in any reference frame *)
Section MarkerVelocitiesInAFrame.
Context {E : Engine}.
Variable h : handler.

(** X8.  With a reference frame, [marker_velocities] queries the frame
    first and the marker velocities second.  When the frame query fails the
    marker velocities are never asked for.  When both succeed, no marker is
    dropped by the condition of the comprehension (the engine's [applyRT]
    changes the marker in place and returns nothing): the result holds, side
    by side and in the engine's order, every marker after [applyRT] with the
    transposed frame. *)
Theorem marker_velocities_keeps_every_marker
        (q qdot update_kin reference_jcs : value) (s : engine_state) :
  is_none reference_jcs = false ->
  (forall e s1,
     h (Call (biorbd.Obj biorbd.globalJCS) [q; reference_jcs]) s = (inl e, s1) ->
     run h (marker_velocities q qdot update_kin reference_jcs) s
     = Outcome (inl (EngineFailure e)) s1
         [Ev (Call (biorbd.Obj biorbd.globalJCS) [q; reference_jcs]) (inl e)])
  /\ (forall jcs s1 ms s2,
        h (Call (biorbd.Obj biorbd.globalJCS) [q; reference_jcs]) s = (inr jcs, s1) ->
        h (Call (biorbd.Objs biorbd.markersVelocity) [q; qdot; update_kin]) s1
        = (inr ms, s2) ->
        run h (marker_velocities q qdot update_kin reference_jcs) s
        = Outcome (inr (horzcat (map (fun m => to_mx (applyRT (transpose jcs) m)) ms))) s2
            [Ev (Call (biorbd.Obj biorbd.globalJCS) [q; reference_jcs]) (inr jcs);
             Ev (Call (biorbd.Objs biorbd.markersVelocity) [q; qdot; update_kin])
                (inr ms)]).
Proof.
  intros Href. unfold marker_velocities. rewrite Href.
  unfold global_homogeneous_matrices, call. split.
  - intros e s1 Hframe. simpl. now rewrite Hframe.
  - intros jcs s1 ms s2 Hframe Hms. simpl. rewrite Hframe. simpl. rewrite Hms. simpl.
    now rewrite transformed_markers_map.
Qed.

End MarkerVelocitiesInAFrame.

(** ** The concrete engine at work *)

#[local] Existing Instance Demo.engine.

Lemma demo_rigid_contacts (g : Z) : rigid_contacts Demo.answer g Demo.contact_axes.
Proof.
  split; [reflexivity |].
  intros [| [| ii]] Hii; [reflexivity | reflexivity | simpl in Hii; lia].
Qed.

Lemma demo_marker_index (g : Z) :
  marker_index_looks_up Demo.answer g (Demo.names biorbd.markerNames).
Proof.
  split; [reflexivity |].
  intros name i Hi. unfold reads.
  change (map biorbd.to_string (Demo.names biorbd.markerNames))
    with Demo.marker_list in Hi.
  cbv beta iota delta [Demo.answer Demo.lookup]. now rewrite Hi.
Qed.

Lemma demo_counts_are_sizes (g : Z) : counts_are_sizes Demo.answer g.
Proof.
  exists (Demo.names biorbd.nameDof), (Demo.names biorbd.markerNames).
  repeat split.
Qed.

Lemma demo_identity_transform_laws : identity_transform_laws.
Proof.
  split; [reflexivity |].
  intros [v | x y z | rows | n]; try reflexivity.
  cbn -[Z.mul Z.add]. f_equal; lia.
Qed.

Lemma demo_soft_contact_calls_succeed : soft_contact_calls_succeed Demo.answer.
Proof. intros o a g _. simpl. eauto. Qed.

Lemma demo_wrenches_have_six_rows : wrenches_have_six_rows Demo.answer.
Proof.
  intros a g w. simpl. intros [= <-]. simpl. eexists; split; reflexivity.
Qed.

(** The reshaping of a three-entry vector on the demo model. *)
Lemma reshape_fext_to_fcontact_partitions_fext_witness :
  exists blocks,
    returned (run Demo.answer (reshape_fext_to_fcontact Demo.fext3) 0%Z) = inr blocks
    /\ length blocks = 2
    /\ concat (map nonzeros blocks) = [11; 12; 13]%Z.
Proof.
  destruct (@reshape_fext_to_fcontact_partitions_fext Demo.engine Demo.answer 0%Z
              Demo.contact_axes [11; 12; 13]%Z (demo_rigid_contacts 0) eq_refl)
    as (blocks & Hret & Hlen & _ & _ & _ & _ & Hcat).
  exists blocks. split; [exact Hret | split; [exact Hlen | exact Hcat]].
Defined.

(** A five-entry vector gives what its first three entries give. *)
Lemma reshape_fext_to_fcontact_ignores_what_follows_witness :
  returned (run Demo.answer (reshape_fext_to_fcontact Demo.fext3) 0%Z)
  = returned (run Demo.answer (reshape_fext_to_fcontact Demo.fext5) 0%Z).
Proof.
  apply (proj2 (proj2 (@reshape_fext_to_fcontact_ignores_what_follows Demo.engine
                         Demo.answer 0%Z Demo.contact_axes [11; 12; 13; 14; 15]%Z
                         (demo_rigid_contacts 0)
                         ltac:(unfold total_axes; simpl; lia)))).
  - unfold total_axes; simpl; lia.
  - reflexivity.
Defined.

(** The identity frame on the demo model. *)
Lemma marker_velocities_in_the_identity_frame_witness :
  returned (run Demo.answer (marker_velocities VNone VNone (VBool false) (VInt 0)) 0%Z)
  = returned (run Demo.answer (marker_velocities VNone VNone (VBool false) VNone) 0%Z).
Proof.
  apply (proj1 (proj2 (@marker_velocities_in_the_identity_frame Demo.engine Demo.answer
                         VNone VNone (VBool false) (VInt 0) 0%Z 0%Z
                         demo_identity_transform_laws eq_refl eq_refl))).
  reflexivity.
Defined.


(** The two soft contacts of the demo model give a 12 x 1 vector. *)
Lemma soft_contact_forces_stacks_the_wrenches_witness :
  exists m,
    returned (run Demo.answer (soft_contact_forces VNone VNone) 0%Z) = inr m
    /\ size1 m = 12 /\ size2 m = 1.
Proof.
  destruct (@soft_contact_forces_stacks_the_wrenches Demo.engine Demo.answer
              VNone VNone 0%Z 2 eq_refl demo_wrenches_have_six_rows)
    as [Hret Hshape].
  destruct (Hret demo_soft_contact_calls_succeed) as [m Hm].
  exists m. split; [exact Hm |].
  destruct (Hshape m Hm) as (col & forces & l & _ & H1 & H2 & _).
  split; [exact H1 | exact H2].
Defined.

(** The marker [m1] of the demo model is found at its index. *)
Lemma marker_index_round_trip_witness :
  returned (run Demo.answer (marker_name_at_its_index "m1") 0%Z) = inr "m1"%string.
Proof.
  apply (@marker_index_round_trip Demo.engine Demo.answer 0%Z
           (Demo.names biorbd.markerNames) "m1"%string (demo_marker_index 0)).
  simpl; auto.
Defined.

(** The counts of the demo model are the lengths of its name tuples. *)
Lemma counts_match_name_tuples_witness :
  exists n dofs k marks,
    returned (run Demo.answer nb_q 0%Z) = inr n
    /\ returned (run Demo.answer name_dof 0%Z) = inr dofs
    /\ n = length dofs
    /\ returned (run Demo.answer nb_markers 0%Z) = inr k
    /\ returned (run Demo.answer marker_names 0%Z) = inr marks
    /\ k = length marks.
Proof.
  destruct (@counts_match_name_tuples Demo.engine Demo.answer 0%Z
              (demo_counts_are_sizes 0))
    as (n & dofs & k & marks & H1 & H2 & H3 & H4 & H5 & H6).
  exists n, (to_string_tuple dofs), k, (to_string_tuple marks).
  repeat split; assumption.
Defined.

(** An unknown marker name: the engine's error comes out as it was raised. *)
Lemma engine_errors_propagate_unchanged_witness :
  returned (run Demo.answer (dispatch (op_marker_index (VStr "zz"))) 0%Z)
  = inl (EngineFailure "zz is not in the biorbd model"%string).
Proof.
  apply (proj1 (@engine_errors_propagate_unchanged Demo.engine Demo.answer
                  (op_marker_index (VStr "zz")) 0%Z)).
  eexists; split; [left; reflexivity | reflexivity].
Defined.

(** [nb_q] on the demo model, three times in a row. *)
Lemma count_accessors_are_pure_reads_witness :
  invocations Demo.answer (dispatch op_nb_q) 3 0%Z
  = ([inr (@VInt Demo.engine 2); inr (VInt 2); inr (VInt 2)], 0%Z).
Proof.
  destruct (proj2 (@count_accessors_are_pure_reads Demo.engine Demo.answer op_nb_q
                     biorbd.nbQ eq_refl) 0%Z 2 eq_refl) as (_ & _ & H).
  exact (H 3).
Defined.

(** [marker(q, 1)] on the demo model calls the engine once. *)
Lemma marker_with_one_argument_returns_the_bound_method_witness :
  calls (log (run Demo.answer (marker [VNone; VInt 1]) 0%Z))
  = [Call (biorbd.Obj biorbd.marker) [VNone; VInt 1]].
Proof.
  apply (proj2 (proj2 (@marker_with_one_argument_returns_the_bound_method
                         Demo.engine Demo.answer 0%Z))).
  simpl; lia.
Defined.


(** C7, counterexample.  On the demo model, whose contacts have three axes
    in all, a two-entry vector makes [reshape_fext_to_fcontact] fail in the
    matrix library although every engine call succeeded. *)
Lemma short_fext_fails_without_an_engine_error :
  ~ transparent_conduit Demo.answer (op_reshape_fext_to_fcontact Demo.fext2) 0%Z.
Proof.
  intros [_ [Hfail _]].
  destruct Hfail as (e & ev & Hin & Hev).
  - exists (LibraryFailure OutOfBounds). reflexivity.
  - simpl in Hin. destruct Hin as [<- | [<- | [<- | []]]]; discriminate Hev.
Qed.

(** C2, counterexample.  On the demo model with cached kinematics, last
    updated with [q = 0]: asked with [q = 1] and the update flag false, the
    call without a frame reads the cache as it is and returns the marker at
    0, while the call with the frame of segment 0, whose transform is the
    identity, first updates the cache by its frame query and returns the
    marker at 1. *)
Lemma a_stale_cache_separates_the_two_frames :
  identity_transform_laws
  /\ Demo.caching (Call (biorbd.Obj biorbd.globalJCS) [VInt 1; VInt 0]) 0%Z
     = (inr RotoTrans, 1%Z)
  /\ returned (run Demo.caching (marker_velocities (VInt 1) VNone (VBool false) VNone) 0%Z)
     = inr [[0; 0; 0]]%Z
  /\ returned (run Demo.caching (marker_velocities (VInt 1) VNone (VBool false) (VInt 0)) 0%Z)
     = inr [[1; 1; 1]]%Z
  /\ ~ identity_frame_equivalence Demo.caching (VInt 1) VNone (VBool false) (VInt 0) 0%Z.
Proof.
  split; [exact demo_identity_transform_laws |].
  split; [reflexivity | split; [reflexivity | split; [reflexivity |]]].
  intros H. discriminate H.
Qed.

(** [marker_velocities] with a reference frame makes two engine calls. *)
Lemma operations_without_a_loop_bound_their_calls_witness :
  length (log (run Demo.answer
                 (dispatch (op_marker_velocities VNone VNone None (Some (VInt 0)))) 0%Z))
  <= 2.
Proof.
  apply (proj1 (@operations_without_a_loop_bound_their_calls Demo.engine Demo.answer
                  (op_marker_velocities VNone VNone None (Some (VInt 0))) 0%Z 2 eq_refl)).
Defined.

(** [angular_momentum] on the demo engine returns the engine's vector. *)
Lemma unconverted_results_are_engine_objects_witness :
  exists f a r s',
    forwarded_call (op_angular_momentum VNone VNone None) = Some (f, a)
    /\ Demo.answer (Call (biorbd.Obj f) a) 0%Z = (inr r, s')
    /\ @VNative Demo.engine (Demo.Vector3d 0 0 0) = VNative r.
Proof.
  destruct (@unconverted_results_are_engine_objects Demo.engine Demo.answer
              (op_angular_momentum VNone VNone None) 0%Z
              (@VNative Demo.engine (Demo.Vector3d 0 0 0)) eq_refl eq_refl)
    as (f & a & r & s' & Hf & Hh & Hv & _).
  exists f, a, r, s'. split; [exact Hf | split; [exact Hh | exact Hv]].
Defined.

(** [contact_names] on the demo engine. *)
Lemma name_accessors_mirror_the_engine_names_witness :
  exists tuple,
    returned (run Demo.answer (dispatch op_contact_names) 0%Z) = inr (VTuple tuple)
    /\ length tuple = 3.
Proof.
  destruct (@name_accessors_mirror_the_engine_names Demo.engine Demo.answer
              op_contact_names biorbd.contactNames 0%Z
              (Demo.names biorbd.contactNames) eq_refl eq_refl)
    as (tuple & Hret & Hlen & _).
  exists tuple. split; [exact Hret | exact Hlen].
Defined.

(** The calls of the reshaping on the demo engine. *)
Lemma reshape_fext_to_fcontact_asks_each_contact_once_witness :
  calls (log (run Demo.answer (reshape_fext_to_fcontact Demo.fext5) 0%Z))
  = [Call (biorbd.Count biorbd.nbRigidContacts) []; axis_call 0; axis_call 1].
Proof.
  apply (proj1 (@reshape_fext_to_fcontact_asks_each_contact_once Demo.engine Demo.answer
                  0%Z Demo.contact_axes [11; 12; 13; 14; 15]%Z (demo_rigid_contacts 0)
                  ltac:(unfold total_axes; simpl; lia))).
Defined.

(** Two blocks of two and one entries come back as they were. *)
Lemma reshape_fext_to_fcontact_of_concatenated_blocks_witness :
  returned (run Demo.answer (reshape_fext_to_fcontact Demo.fext3) 0%Z)
  = inr [colvec [11; 12]%Z; colvec [13]%Z].
Proof.
  apply (@reshape_fext_to_fcontact_of_concatenated_blocks Demo.engine Demo.answer 0%Z
           Demo.contact_axes [[11; 12]; [13]]%Z (demo_rigid_contacts 0) eq_refl).
Defined.

(** A two-entry vector on the demo engine: the first block is cut, the
    second overruns. *)
Lemma reshape_fext_to_fcontact_stops_at_the_overrun_witness :
  returned (run Demo.answer (reshape_fext_to_fcontact Demo.fext2) 0%Z)
  = inl (LibraryFailure OutOfBounds)
  /\ calls (log (run Demo.answer (reshape_fext_to_fcontact Demo.fext2) 0%Z))
     = [Call (biorbd.Count biorbd.nbRigidContacts) []; axis_call 0; axis_call 1].
Proof.
  destruct (@reshape_fext_to_fcontact_stops_at_the_overrun Demo.engine Demo.answer 0%Z
              Demo.contact_axes [11; 12]%Z 1 (demo_rigid_contacts 0)
              ltac:(simpl; lia) ltac:(unfold offset; simpl; lia)
              ltac:(unfold offset; simpl; lia))
    as (Hret & _ & Hcalls).
  split; [exact Hret | exact Hcalls].
Defined.

(** The three markers of the demo engine in the frame of segment 0. *)
Lemma marker_velocities_keeps_every_marker_witness :
  returned (run Demo.answer (marker_velocities VNone VNone (VBool true) (VInt 0)) 0%Z)
  = inr [[1; 2; 3]; [4; 5; 6]; [7; 8; 9]]%Z.
Proof.
  rewrite (proj2 (@marker_velocities_keeps_every_marker Demo.engine Demo.answer
                    VNone VNone (VBool true) (VInt 0) 0%Z eq_refl)
             (Demo.Transform Demo.identity4) 0%Z
             [Demo.Vector3d 1 2 3; Demo.Vector3d 4 5 6; Demo.Vector3d 7 8 9]%Z 0%Z
             eq_refl eq_refl).
  reflexivity.
Defined.
